(** * Port forwarder and port-keyed HTTP proxy: model and properties

    A shallow embedding of [port_forwarder.py] and [proxy_server.py]
    (apps/reverse_proxy_streamlit).  Python objects become records, the
    dictionaries [active_forwards] and [routes] become [gmap]s, exceptions
    become the [Raise] branch of [result], and everything the operating
    system decides (whether a bind succeeds, what a socket returns, what an
    upstream answers) is an explicit environment argument. *)

From stdpp Require Import gmap strings list fin_maps pretty.
From Stdlib Require Import ZArith.
From Stdlib.Strings Require Import Byte.

Local Open Scope Z_scope.

(** ** Python values shared by both engines *)

(** Exceptions that the modelled code can meet. All of them are subclasses
    of [Exception], so an [except Exception] clause catches each one. *)
Inductive exn :=
  | KeyError (key : string)
  | TypeError
  | RuntimeError
  | OSError (msg : string)
  | AttributeError (name : string)
  | OverflowError.

Inductive result (A : Type) :=
  | Return (a : A)
  | Raise (e : exn).
Arguments Return {A} a.
Arguments Raise {A} e.

(** The scalar JSON values a field of a mapping record may hold. *)
Inductive jvalue :=
  | JNull
  | JBool (b : bool)
  | JNum (z : Z)
  | JStr (s : string).

(** Python truthiness of a JSON scalar. *)
Definition truthy (v : jvalue) : bool :=
  match v with
  | JNull => false
  | JBool b => b
  | JNum z => negb (z =? 0)
  | JStr s => negb (String.eqb s EmptyString)
  end.

(** One record of [port_mappings.json]. A field is [None] when the key is
    absent from the JSON object. *)
Module Mapping.
Record t := Build {
  external_port : option Z;
  target_server : option string;
  target_port : option Z;
  is_active : option jvalue
}.

(** [m.get('is_active', True)], used as a condition. *)
Definition get_is_active (m : t) : bool :=
  match is_active m with
  | Some v => truthy v
  | None => true
  end.
End Mapping.

(** What [self.mappings_file] looks like when it is read:
    absent, present but [read_text]/[json.loads] raises, or a list of
    records. *)
Inductive mappings_file :=
  | FileMissing
  | FileUnreadable
  | FileContents (mappings : list Mapping.t).

(** ** port_forwarder.py *)

Inductive server_socket_state := Listening | Closed.

(** What happens to a freshly constructed [ForwardThread] when
    [start_forwarding] starts it: [Thread.start] itself raises, or the
    thread runs and [bind]/[listen] raises, or the thread reaches its
    accept loop. *)
Inductive start_env := StartRaises | BindRaises | BindOk.

#[global] Instance start_env_eq_dec : EqDecision start_env.
Proof. solve_decision. Defined.

Module ForwardThread.
Record t := Build {
  external_port : Z;
  target_host : string;
  target_port : Z;
  is_active : bool;
  connection_count : nat;
  server_socket : option server_socket_state
}.

(** [__init__] *)
Definition init (external_port : Z) (target_host : string) (target_port : Z) : t :=
  Build external_port target_host target_port false 0%nat None.

(** [run], from its start up to the first [accept]: the socket is
    created; when [bind] and [listen] succeed [is_active] becomes [True];
    otherwise the [except] and [finally] clauses reset [is_active] and
    close the socket. *)
Definition run_until_accept (bind_ok : bool) (th : t) : t :=
  if bind_ok
  then Build (external_port th) (target_host th) (target_port th)
             true (connection_count th) (Some Listening)
  else Build (external_port th) (target_host th) (target_port th)
             false (connection_count th) (Some Closed).

(** [stop] *)
Definition stop (th : t) : t :=
  Build (external_port th) (target_host th) (target_port th)
        false (connection_count th)
        (match server_socket th with
         | Some _ => Some Closed
         | None => None
         end).
End ForwardThread.

Module PortForwarder.
(** The forwarder object together with the [ForwardThread] objects it has
    constructed so far; a thread object is named by its position in
    [heap]. *)
Record t := Build {
  active_forwards : gmap Z nat;
  is_running : bool;
  heap : list ForwardThread.t
}.

(** [__init__] *)
Definition init : t := Build ∅ false [].

(** One entry of [get_status()['forwards']]. *)
Record forward_status := BuildForwardStatus {
  fs_external_port : Z;
  fs_target_host : string;
  fs_target_port : Z;
  fs_is_active : bool;
  fs_connections : nat;
  fs_server_socket_bound : bool
}.

Record status := BuildStatus {
  st_is_running : bool;
  st_active_forwards : nat;
  st_forwards : list forward_status
}.

Definition load_mappings (file : mappings_file) : list Mapping.t :=
  match file with
  | FileContents mappings => filter (λ m, Mapping.get_is_active m = true) mappings
  | FileMissing => []
  | FileUnreadable => []
  end.

Section WithEnvironment.
(** The fate of the thread object that gets position [id] in the heap. *)
Variable env : nat → start_env.

Definition start_forwarding (external_port : Z) (target_host : string)
    (target_port : Z) (self : t) : bool * t :=
  match active_forwards self !! external_port with
  | Some _ => (false, self)
  | None =>
      let id := length (heap self) in
      let forward_thread := ForwardThread.init external_port target_host target_port in
      match env id with
      | StartRaises =>
          (false, Build (active_forwards self) (is_running self)
                        (heap self ++ [forward_thread]))
      | BindRaises =>
          (true, Build (<[external_port := id]> (active_forwards self))
                       (is_running self)
                       (heap self ++ [ForwardThread.run_until_accept false forward_thread]))
      | BindOk =>
          (true, Build (<[external_port := id]> (active_forwards self))
                       (is_running self)
                       (heap self ++ [ForwardThread.run_until_accept true forward_thread]))
      end
  end.

Definition stop_forwarding (external_port : Z) (self : t) : bool * t :=
  match active_forwards self !! external_port with
  | Some id =>
      (true, Build (delete external_port (active_forwards self))
                   (is_running self)
                   (alter ForwardThread.stop id (heap self)))
  | None => (false, self)
  end.

(** The [for] loop of [start_all_forwards]: a record lacking one of the
    three keys raises [KeyError] and leaves the loop. *)
Fixpoint start_each (mappings : list Mapping.t) (self : t) : result unit * t :=
  match mappings with
  | [] => (Return tt, self)
  | mapping :: rest =>
      match Mapping.external_port mapping with
      | None => (Raise (KeyError "external_port"), self)
      | Some external_port =>
          match Mapping.target_server mapping with
          | None => (Raise (KeyError "target_server"), self)
          | Some target_server =>
              match Mapping.target_port mapping with
              | None => (Raise (KeyError "target_port"), self)
              | Some target_port =>
                  start_each rest
                    (snd (start_forwarding external_port target_server target_port self))
              end
          end
      end
  end.

Definition start_all_forwards (file : mappings_file) (self : t) : result unit * t :=
  let mappings := load_mappings file in
  match start_each mappings self with
  | (Return _, self') =>
      (Return tt, Build (active_forwards self') true (heap self'))
  | (Raise e, self') => (Raise e, self')
  end.

(** [for external_port in list(self.active_forwards.keys())] *)
Definition stop_each (ports : list Z) (self : t) : t :=
  foldl (λ s external_port, snd (stop_forwarding external_port s)) self ports.

Definition stop_all_forwards (self : t) : t :=
  let self' := stop_each (map_to_list (active_forwards self)).*1 self in
  Build (active_forwards self') false (heap self').

(** [get_status]. A registered thread whose [is_active] flag is set is
    inside its accept loop, so [thread.is_alive() and thread.is_active] is
    the flag itself. *)
Definition get_status (self : t) : status :=
  BuildStatus (is_running self) (size (active_forwards self))
    (omap (λ '(external_port, id),
             th ← heap self !! id;
             Some (BuildForwardStatus external_port
                     (ForwardThread.target_host th)
                     (ForwardThread.target_port th)
                     (ForwardThread.is_active th)
                     (ForwardThread.connection_count th)
                     (bool_decide (is_Some (ForwardThread.server_socket th)))))
          (map_to_list (active_forwards self))).

Definition reload_mappings (file : mappings_file) (self : t) : result status * t :=
  let self1 := stop_all_forwards self in
  match start_all_forwards file self1 with
  | (Return _, self2) => (Return (get_status self2), self2)
  | (Raise e, self2) => (Raise e, self2)
  end.

(** The states a forwarder object can be in: any sequence of calls of
    its public methods, starting from a fresh object. *)
Inductive reachable : t → Prop :=
  | reach_init : reachable init
  | reach_start_forwarding self external_port target_host target_port :
      reachable self →
      reachable (snd (start_forwarding external_port target_host target_port self))
  | reach_stop_forwarding self external_port :
      reachable self →
      reachable (snd (stop_forwarding external_port self))
  | reach_start_all_forwards self file :
      reachable self →
      reachable (snd (start_all_forwards file self))
  | reach_stop_all_forwards self :
      reachable self →
      reachable (stop_all_forwards self)
  | reach_reload_mappings self file :
      reachable self →
      reachable (snd (reload_mappings file self)).
End WithEnvironment.
End PortForwarder.

(** *** ConnectionHandler: one relayed connection *)

Module ConnectionHandler.
Inductive sock := ClientSocket | TargetSocket.

(** The socket-level calls the module can issue.  [OpShutdown] is the
    half-close [shutdown(SHUT_WR)]; it is listed so that its absence from
    every call log can be stated. *)
Inductive sock_op :=
  | OpSocket (s : sock)
  | OpSetTimeout (s : sock)
  | OpConnect (s : sock)
  | OpSetNoDelay (s : sock)
  | OpSelect (s : sock)
  | OpRecv (s : sock)
  | OpSend (s : sock) (data : list byte)
  | OpShutdown (s : sock)
  | OpClose (s : sock).

#[global] Instance byte_eq_dec : EqDecision byte := Byte.byte_eq_dec.

#[global] Instance sock_eq_dec : EqDecision sock.
Proof. solve_decision. Defined.

#[global] Instance sock_op_eq_dec : EqDecision sock_op.
Proof. solve_decision. Defined.

(** What [dst.send(data)] does: it raises, or it accepts the first [n]
    bytes of [data] and returns [n]. *)
Inductive send_env := SendRaises | SendAccepts (n : nat).

(** What one turn of the [while True] loop of [forward] meets:
    [select] returns an empty list after its 1.0 s timeout, [select]
    raises, [recv] raises, or [recv] returns [data] (empty at end of
    stream) and the following [send] behaves as [send]. *)
Inductive poll_env :=
  | SelectTimeout
  | SelectRaises
  | RecvRaises
  | RecvReturns (data : list byte) (send : send_env).

(** Where a copy loop stands when its environment trace is used up:
    still inside [while True], left by [break], or left through the
    [except] clause. *)
Inductive loop_status := Polling | EndOfStream | Failed.

Record forward_result := BuildForward {
  received : list byte;     (* bytes returned by [src.recv] *)
  delivered : list byte;    (* bytes accepted by [dst.send] *)
  calls : list sock_op;     (* socket calls issued, oldest first *)
  timeouts : nat;           (* turns spent in a timed-out [select] *)
  status : loop_status
}.

Definition after_turn (rcv dlv : list byte) (ops : list sock_op) (idle : nat)
    (r : forward_result) : forward_result :=
  BuildForward (rcv ++ received r) (dlv ++ delivered r) (ops ++ calls r)
               (idle + timeouts r) (status r).

(** The inner function [forward(src, dst, direction)]. The value of
    [dst.send] is discarded by the source, so the loop goes on to the
    next [recv] whatever number of bytes was accepted. *)
Fixpoint forward (src dst : sock) (trace : list poll_env) : forward_result :=
  match trace with
  | [] => BuildForward [] [] [] 0 Polling
  | SelectTimeout :: rest =>
      after_turn [] [] [OpSelect src] 1 (forward src dst rest)
  | SelectRaises :: _ =>
      BuildForward [] [] [OpSelect src] 0 Failed
  | RecvRaises :: _ =>
      BuildForward [] [] [OpSelect src; OpRecv src] 0 Failed
  | RecvReturns data send :: rest =>
      match data with
      | [] => BuildForward [] [] [OpSelect src; OpRecv src] 0 EndOfStream
      | _ :: _ =>
          match send with
          | SendRaises =>
              BuildForward data [] [OpSelect src; OpRecv src; OpSend dst data] 0 Failed
          | SendAccepts n =>
              after_turn data (take n data)
                [OpSelect src; OpRecv src; OpSend dst data] 0
                (forward src dst rest)
          end
      end
  end.

(** The second at which a copy loop ends by itself, counted from its
    start in timed-out [select] calls of one second each; [None] while
    it is still polling. *)
Definition finish_time (r : forward_result) : option nat :=
  match status r with
  | Polling => None
  | EndOfStream | Failed => Some (timeouts r)
  end.

(** [Thread.join(timeout)] called at second [now] on a thread that ends
    at [finish]: the call returns when the thread has ended or [timeout]
    seconds have passed, whichever comes first. *)
Definition join (timeout : nat) (finish : option nat) (now : nat) : nat :=
  match finish with
  | Some f => Nat.max now (Nat.min f (now + timeout))
  | None => (now + timeout)%nat
  end.

Inductive socket_state := SockOpen | SockClosed.

(** The handler thread's view of one session. [target_socket] is [None]
    while the local variable of [run] still holds [None]. [clock] counts
    seconds from the moment the copy loops are started. *)
Record state := BuildState {
  client_socket : socket_state;
  target_socket : option socket_state;
  main_calls : list sock_op;
  clock : nat
}.

Definition init : state := BuildState SockOpen None [] 0.

(** Everything outside the handler's control during one [run]. *)
Record run_env := BuildEnv {
  socket_result : result unit;          (* [socket.socket(...)] *)
  connect_result : result unit;         (* [target_socket.connect] *)
  client_nodelay_result : result unit;  (* [client_socket.setsockopt] *)
  target_nodelay_result : result unit;  (* [target_socket.setsockopt] *)
  t1_start_result : result unit;        (* [t1.start()] *)
  t2_start_result : result unit;        (* [t2.start()] *)
  client_to_target : list poll_env;
  target_to_client : list poll_env
}.

(** State and exception monad for the body of [run]. *)
Definition M (A : Type) : Type := state → result A * state.

#[local] Instance M_ret : MRet M := λ A a s, (Return a, s).

#[local] Instance M_bind : MBind M :=
  λ A B k m s, match m s with
               | (Return a, s') => k a s'
               | (Raise e, s') => (Raise e, s')
               end.

(** [try: body / except Exception as e: handler e] *)
Definition try_except {A} (body : M A) (handler : exn → M A) : M A :=
  λ s, match body s with
       | (Return a, s') => (Return a, s')
       | (Raise e, s') => handler e s'
       end.

(** [try: body / finally: cleanup]: the cleanup always runs, then the
    outcome of the body (value or exception) is passed on, unless the
    cleanup itself raises. *)
Definition try_finally {A} (body : M A) (cleanup : M unit) : M A :=
  λ s, match body s with
       | (r, s') =>
           match cleanup s' with
           | (Return _, s'') => (r, s'')
           | (Raise e, s'') => (Raise e, s'')
           end
       end.

Definition log (op : sock_op) : M unit :=
  λ s, (Return tt, BuildState (client_socket s) (target_socket s)
                              (main_calls s ++ [op]) (clock s)).

(** A call whose outcome the environment decides. *)
Definition call (op : sock_op) (outcome : result unit) : M unit :=
  λ s, (outcome, BuildState (client_socket s) (target_socket s)
                            (main_calls s ++ [op]) (clock s)).

Definition create_target_socket (outcome : result unit) : M unit :=
  λ s, match outcome with
       | Return _ =>
           (Return tt, BuildState (client_socket s) (Some SockOpen)
                                  (main_calls s ++ [OpSocket TargetSocket]) (clock s))
       | Raise e => (Raise e, s)
       end.

Definition close_target : M unit :=
  λ s, match target_socket s with
       | Some _ =>
           (Return tt, BuildState (client_socket s) (Some SockClosed)
                                  (main_calls s ++ [OpClose TargetSocket]) (clock s))
       | None => (Return tt, s)
       end.

Definition close_client : M unit :=
  λ s, (Return tt, BuildState SockClosed (target_socket s)
                              (main_calls s ++ [OpClose ClientSocket]) (clock s)).

Definition wait_join (timeout : nat) (finish : option nat) : M unit :=
  λ s, (Return tt, BuildState (client_socket s) (target_socket s) (main_calls s)
                              (join timeout finish (clock s))).

Definition start_thread (outcome : result unit) : M unit :=
  λ s, (outcome, s).

Section Run.
Variable timeout : nat.
Variable e : run_env.

Definition forward_data_optimized : M unit :=
  let t1 := forward ClientSocket TargetSocket (client_to_target e) in
  let t2 := forward TargetSocket ClientSocket (target_to_client e) in
  start_thread (t1_start_result e) ;;
  start_thread (t2_start_result e) ;;
  wait_join timeout (finish_time t1) ;;
  wait_join timeout (finish_time t2).

Definition run : M unit :=
  try_finally
    (try_except
       (create_target_socket (socket_result e) ;;
        log (OpSetTimeout TargetSocket) ;;
        call (OpConnect TargetSocket) (connect_result e) ;;
        call (OpSetNoDelay ClientSocket) (client_nodelay_result e) ;;
        call (OpSetNoDelay TargetSocket) (target_nodelay_result e) ;;
        forward_data_optimized)
       (λ _, mret tt))
    (close_target ;; close_client).
End Run.
End ConnectionHandler.

(** ** proxy_server.py *)

(** What a call expression hands to [await]: the call of a plain [def]
    that ends without [return] yields [None]; the call of an [async def]
    yields an awaitable that produces a value. *)
Inductive pyvalue (A : Type) :=
  | PyNone
  | PyAwaitable (a : A).
Arguments PyNone {A}.
Arguments PyAwaitable {A} a.

(** [await v]: a value that is not awaitable raises [TypeError]. *)
Definition await {A} (v : pyvalue A) : result A :=
  match v with
  | PyAwaitable a => Return a
  | PyNone => Raise TypeError
  end.

Module ProxyServer.
Record t := Build {
  routes : gmap Z string;
  is_running : bool
}.

(** [__init__] *)
Definition init : t := Build ∅ false.

(** The parts of the inbound [aiohttp.web.Request] that [proxy_handler]
    reads and that such an object has. *)
Record request := BuildRequest {
  path : string;
  method : string;
  headers : gmap string string;
  body : option (list byte)
}.

Inductive payload :=
  | Text (s : string)
  | Body (content : list byte).

(** [web.Response(...)] *)
Record response := BuildResponse {
  status : Z;
  response_headers : gmap string string;
  response_payload : payload
}.

(** The dictionary given to [web.json_response] by [reload_mappings]. *)
Record reload_json := BuildReloadJson {
  rj_status : string;
  rj_active_mappings : nat;
  rj_timestamp : string
}.

(** What [session.request(...)] followed by [response.read()] does: the
    upstream answers, or some step raises with message [msg]. *)
Inductive upstream_env :=
  | UpstreamResponds (status : Z) (headers : gmap string string) (content : list byte)
  | UpstreamRaises (msg : string).

(** [f"http://{mapping['target_server']}:{mapping['target_port']}"] *)
Definition target_url_of (target_server : string) (target_port : Z) : string :=
  "http://" +:+ target_server +:+ ":" +:+ pretty target_port.

(** The [for mapping in mappings] loop of [load_mappings], writing into
    [self.routes] as it goes; a missing key raises [KeyError] and leaves
    the loop with the routes written so far. *)
Fixpoint load_each (mappings : list Mapping.t) (routes : gmap Z string)
    : result unit * gmap Z string :=
  match mappings with
  | [] => (Return tt, routes)
  | mapping :: rest =>
      if Mapping.get_is_active mapping then
        match Mapping.external_port mapping with
        | None => (Raise (KeyError "external_port"), routes)
        | Some external_port =>
            match Mapping.target_server mapping with
            | None => (Raise (KeyError "target_server"), routes)
            | Some target_server =>
                match Mapping.target_port mapping with
                | None => (Raise (KeyError "target_port"), routes)
                | Some target_port =>
                    load_each rest
                      (<[external_port := target_url_of target_server target_port]> routes)
                end
            end
        end
      else load_each rest routes
  end.

(** [load_mappings] is a plain [def] without [return]: every path,
    the [except] clause included, ends by yielding [None]. *)
Definition load_mappings (file : mappings_file) (self : t) : pyvalue unit * t :=
  match file with
  | FileContents mappings =>
      (PyNone, Build (snd (load_each mappings ∅)) (is_running self))
  | FileMissing => (PyNone, self)
  | FileUnreadable => (PyNone, self)
  end.

(** [reload_mappings], the handler of [POST /reload]; [now] is
    [datetime.now().isoformat()]. *)
Definition reload_mappings (now : string) (file : mappings_file) (self : t)
    : result reload_json * t :=
  let '(v, self') := load_mappings file self in
  match await v with
  | Return _ =>
      (Return (BuildReloadJson "reloaded" (size (routes self')) now), self')
  | Raise e => (Raise e, self')
  end.

(** [request.port]. An [aiohttp.web.Request] has no attribute [port]
    (the port a request arrived on is [request.url.port]), so reading it
    raises [AttributeError]. *)
Definition request_port (request : request) : result Z :=
  Raise (AttributeError "port").

(** The search for the target URL at the head of [proxy_handler]:
    [for port, url in self.routes.items(): if request.port == port: ...],
    each turn of which reads [request.port]. *)
Fixpoint find_target_url_in (request : request) (items : list (Z * string))
    : result (option string) :=
  match items with
  | [] => Return None
  | (port, url) :: rest =>
      match request_port request with
      | Raise e => Raise e
      | Return arrived =>
          if decide (arrived = port) then Return (Some (url +:+ path request))
          else find_target_url_in request rest
      end
  end.

Definition find_target_url (request : request) (self : t) : result (option string) :=
  find_target_url_in request (map_to_list (routes self)).

Definition route_not_found : response :=
  BuildResponse 404 ∅ (Text "포트 매핑을 찾을 수 없습니다.").

Definition proxy_error (msg : string) : response :=
  BuildResponse 500 ∅ (Text ("프록시 오류: " +:+ msg)).

Section Handler.
(** The upstream, as a function of method, URL, headers and body. *)
Variable upstream :
  string → string → gmap string string → option (list byte) → upstream_env.

(** The search runs before the [try]: what it raises leaves the handler. *)
Definition proxy_handler (request : request) (self : t) : result response :=
  let headers := delete "Host" (headers request) in
  match find_target_url request self with
  | Raise e => Raise e
  | Return None => Return route_not_found
  | Return (Some target_url) =>
      if String.eqb target_url EmptyString then Return route_not_found
      else
        match upstream (method request) target_url headers (body request) with
        | UpstreamResponds status response_headers content =>
            Return (BuildResponse status response_headers (Body content))
        | UpstreamRaises msg => Return (proxy_error msg)
        end
  end.
End Handler.

(** [start_server], as far as it touches the object. A running server is
    left alone. Otherwise the mappings are loaded, and [site] is the
    outcome of what follows: registering the proxy paths (which raises
    [RuntimeError] on a router that an earlier start has frozen),
    [runner.setup] and the start of the site. Only when all of that
    succeeds is [is_running] set. *)
Definition start_server (site : result unit) (file : mappings_file) (self : t)
    : result unit * t :=
  if is_running self then (Return tt, self)
  else
    let self' := snd (load_mappings file self) in
    match site with
    | Return _ => (Return tt, Build (routes self') true)
    | Raise e => (Raise e, self')
    end.

Definition stop_server (self : t) : t :=
  if is_running self then Build (routes self) false else self.

(** The server objects that can exist: a fresh one, and whatever the
    methods that write to the object make of one. *)
Inductive reachable : t → Prop :=
  | reach_init : reachable init
  | reach_load_mappings self file :
      reachable self → reachable (snd (load_mappings file self))
  | reach_start_server self site file :
      reachable self → reachable (snd (start_server site file self))
  | reach_stop_server self :
      reachable self → reachable (stop_server self).
End ProxyServer.

(** ** Vocabulary of the properties *)

Module Props.
(** A record carries the three keys that both engines index without a
    default. *)
Definition complete (m : Mapping.t) : Prop :=
  is_Some (Mapping.external_port m) ∧
  is_Some (Mapping.target_server m) ∧
  is_Some (Mapping.target_port m).

(** A record the proxy's loading loop gets past: it is switched off, or
    it is complete. *)
Definition passable (m : Mapping.t) : Prop :=
  Mapping.get_is_active m = false ∨ complete m.

(** The external ports named by a list of records. *)
Definition ports_of (mappings : list Mapping.t) : gset Z :=
  list_to_set (omap Mapping.external_port mappings).

(** No thread of this run fails in [Thread.start]. *)
Definition threads_start (env : nat → start_env) : Prop :=
  ∀ id, env id ≠ StartRaises.

(** The forwarder's structural invariant: a registered port names a
    thread object made for that port, and a thread whose [is_active]
    flag is set is the one registered for its port. *)
Definition consistent (self : PortForwarder.t) : Prop :=
  (∀ p id, PortForwarder.active_forwards self !! p = Some id →
     ∃ th, PortForwarder.heap self !! id = Some th ∧
           ForwardThread.external_port th = p) ∧
  (∀ id th, PortForwarder.heap self !! id = Some th →
     ForwardThread.is_active th = true →
     PortForwarder.active_forwards self !! ForwardThread.external_port th = Some id).

(** The listener registered for [p] in [before] is the same thread
    object, in the same condition, in [after]. *)
Definition listener_untouched (before after : PortForwarder.t) (p : Z) : Prop :=
  PortForwarder.active_forwards after !! p = PortForwarder.active_forwards before !! p ∧
  ∀ id, PortForwarder.active_forwards before !! p = Some id →
        PortForwarder.heap after !! id = PortForwarder.heap before !! id.

(** The active records of [file] that name port [p] all give the target
    the listener registered for [p] already has, and there is one. *)
Definition mapping_unchanged (file : mappings_file) (self : PortForwarder.t)
    (p : Z) : Prop :=
  ∃ id th,
    PortForwarder.active_forwards self !! p = Some id ∧
    PortForwarder.heap self !! id = Some th ∧
    (∃ m, m ∈ PortForwarder.load_mappings file ∧ Mapping.external_port m = Some p) ∧
    ∀ m, m ∈ PortForwarder.load_mappings file →
         Mapping.external_port m = Some p →
         Mapping.target_server m = Some (ForwardThread.target_host th) ∧
         Mapping.target_port m = Some (ForwardThread.target_port th).

(** The calls the copy loop [forward src dst] may issue. *)
Definition copy_call (src dst : ConnectionHandler.sock)
    (op : ConnectionHandler.sock_op) : Prop :=
  op = ConnectionHandler.OpSelect src ∨
  op = ConnectionHandler.OpRecv src ∨
  ∃ data, op = ConnectionHandler.OpSend dst data.

(** Every [send] of the trace accepts the whole chunk it is given. *)
Definition sends_complete (trace : list ConnectionHandler.poll_env) : Prop :=
  Forall (λ turn,
            match turn with
            | ConnectionHandler.RecvReturns data (ConnectionHandler.SendAccepts n) =>
                (length data ≤ n)%nat
            | _ => True
            end) trace.

(** A session in which nothing goes wrong and no byte ever arrives:
    both copy loops see [n] timed-out polls. *)
Definition idle_session (n : nat) : ConnectionHandler.run_env :=
  ConnectionHandler.BuildEnv (Return tt) (Return tt) (Return tt) (Return tt)
    (Return tt) (Return tt)
    (replicate n ConnectionHandler.SelectTimeout)
    (replicate n ConnectionHandler.SelectTimeout).

(** A session in which nothing goes wrong, the client closes its side
    after two idle seconds, and the target stays silent for [n] polls. *)
Definition half_closed_session (n : nat) : ConnectionHandler.run_env :=
  ConnectionHandler.BuildEnv (Return tt) (Return tt) (Return tt) (Return tt)
    (Return tt) (Return tt)
    [ConnectionHandler.SelectTimeout; ConnectionHandler.SelectTimeout;
     ConnectionHandler.RecvReturns [] ConnectionHandler.SendRaises]
    (replicate n ConnectionHandler.SelectTimeout).

(** The handler got as far as starting both copy loops. *)
Definition relay_started (e : ConnectionHandler.run_env) : Prop :=
  ConnectionHandler.socket_result e = Return tt ∧
  ConnectionHandler.connect_result e = Return tt ∧
  ConnectionHandler.client_nodelay_result e = Return tt ∧
  ConnectionHandler.target_nodelay_result e = Return tt ∧
  ConnectionHandler.t1_start_result e = Return tt ∧
  ConnectionHandler.t2_start_result e = Return tt.

(** The client sends [abc] and then [d] and closes; the first [send]
    towards the target accepts two of the three bytes. *)
Definition short_send_trace : list ConnectionHandler.poll_env :=
  [ConnectionHandler.RecvReturns [x61; x62; x63]%byte (ConnectionHandler.SendAccepts 2);
   ConnectionHandler.RecvReturns [x64]%byte (ConnectionHandler.SendAccepts 1);
   ConnectionHandler.RecvReturns [] ConnectionHandler.SendRaises].

(** The scenario of the specification: port 9000 forwarded to
    127.0.0.1:9100, in a world where every bind succeeds, resp. fails. *)
Definition scenario_mapping : Mapping.t :=
  Mapping.Build (Some 9000) (Some "127.0.0.1") (Some 9100) (Some (JBool true)).

Definition scenario_file : mappings_file := FileContents [scenario_mapping].

Definition always_binds : nat → start_env := λ _, BindOk.

Definition never_binds : nat → start_env := λ _, BindRaises.

(** The same mapping as an older file would hold it, without the
    [is_active] key. *)
Definition legacy_mapping : Mapping.t :=
  Mapping.Build (Some 9000) (Some "127.0.0.1") (Some 9100) None.

(** A proxy that has loaded the scenario file, a request, and an upstream
    that refuses every connection. *)
Definition scenario_proxy : ProxyServer.t :=
  snd (ProxyServer.load_mappings scenario_file ProxyServer.init).

Definition scenario_request : ProxyServer.request :=
  ProxyServer.BuildRequest "/index.html" "GET" ∅ None.

Definition refusing_upstream
    (method url : string) (headers : gmap string string) (body : option (list byte))
    : ProxyServer.upstream_env :=
  ProxyServer.UpstreamRaises "Connection refused".

(** Every URL in the route table was made by [target_url_of]. *)
Definition routes_formatted (routes : gmap Z string) : Prop :=
  ∀ p url, routes !! p = Some url →
           ∃ h tp, url = ProxyServer.target_url_of h tp.

(** A forwarder on which [start_all_forwards] has run once. *)
Definition scenario_forwarder : PortForwarder.t :=
  snd (PortForwarder.start_all_forwards always_binds scenario_file PortForwarder.init).
End Props.

(** ** Further parts of the code *)

(** *** The accept loop of [ForwardThread.run] *)

Module AcceptLoop.
(** The [ConnectionHandler] object constructed for an accepted
    connection, by its constructor arguments. *)
Record handler := BuildHandler {
  client_addr : string;
  target_host : string;
  target_port : Z;
  connection_id : nat;
  buffer_size : Z;
  timeout : nat
}.

(** [self.buffer_size] and [self.timeout] of [ForwardThread.__init__]. *)
Definition thread_buffer_size : Z := 8192.

Definition thread_timeout : nat := 30.

(** What one turn of [while self.is_active] meets: [accept] runs into its
    one-second timeout, [accept] raises something else, [accept] returns a
    connection from [client_addr] (and the handler thread starts or
    [start] raises), or [stop] is called on the thread from outside. *)
Inductive accept_env :=
  | AcceptTimeout
  | AcceptRaises
  | Accepted (client_addr : string) (handler_starts : bool)
  | StopCalled.

(** [self.connection_count += 1] *)
Definition count_connection (th : ForwardThread.t) : ForwardThread.t :=
  ForwardThread.Build (ForwardThread.external_port th) (ForwardThread.target_host th)
    (ForwardThread.target_port th) (ForwardThread.is_active th)
    (S (ForwardThread.connection_count th)) (ForwardThread.server_socket th).

(** [ConnectionHandler(client_socket, client_addr, self.target_host,
    self.target_port, self.connection_count, self.buffer_size,
    self.timeout)] *)
Definition new_handler (th : ForwardThread.t) (client_addr : string) : handler :=
  BuildHandler client_addr (ForwardThread.target_host th) (ForwardThread.target_port th)
    (ForwardThread.connection_count th) thread_buffer_size thread_timeout.

(** The [finally] clause of [run]: [is_active] is reset and the server
    socket, if there is one, is closed. *)
Definition leave (th : ForwardThread.t) : ForwardThread.t := ForwardThread.stop th.

(** The [while self.is_active] loop and what follows it. The result is
    the thread object and the handlers that were started, oldest first.
    When the trace is used up the thread is still inside the loop. *)
Fixpoint accept_loop (trace : list accept_env) (th : ForwardThread.t)
    : ForwardThread.t * list handler :=
  if ForwardThread.is_active th then
    match trace with
    | [] => (th, [])
    | AcceptTimeout :: rest => accept_loop rest th
    | AcceptRaises :: _ => (leave th, [])
    | StopCalled :: _ => (leave (ForwardThread.stop th), [])
    | Accepted client_addr handler_starts :: rest =>
        let th' := count_connection th in
        if handler_starts then
          let '(final, handlers) := accept_loop rest th' in
          (final, new_handler th' client_addr :: handlers)
        else (leave th', [])
    end
  else (leave th, []).

(** [run] as a whole: the part up to the first [accept], then the loop. *)
Definition run (bind_ok : bool) (trace : list accept_env) (th : ForwardThread.t)
    : ForwardThread.t * list handler :=
  if bind_ok then accept_loop trace (ForwardThread.run_until_accept true th)
  else (ForwardThread.run_until_accept false th, []).
End AcceptLoop.

(** *** One call of a public method of [PortForwarder] *)

Module Steps.
Inductive step (env : nat → start_env) : PortForwarder.t → PortForwarder.t → Prop :=
  | step_start_forwarding self p h tp :
      step env self (snd (PortForwarder.start_forwarding env p h tp self))
  | step_stop_forwarding self p :
      step env self (snd (PortForwarder.stop_forwarding p self))
  | step_start_all_forwards self file :
      step env self (snd (PortForwarder.start_all_forwards env file self))
  | step_stop_all_forwards self :
      step env self (PortForwarder.stop_all_forwards self)
  | step_reload_mappings self file :
      step env self (snd (PortForwarder.reload_mappings env file self)).

(** A thread object with its socket closed and its flag reset, as [stop]
    and the [finally] clause of [run] leave it. *)
Definition stopped (th : ForwardThread.t) : Prop :=
  ForwardThread.is_active th = false ∧
  ForwardThread.server_socket th ≠ Some Listening.

(** The first key of a record that [start_all_forwards] finds missing. *)
Definition missing_key (m : Mapping.t) : option string :=
  match Mapping.external_port m, Mapping.target_server m, Mapping.target_port m with
  | None, _, _ => Some "external_port"
  | Some _, None, _ => Some "target_server"
  | Some _, Some _, None => Some "target_port"
  | Some _, Some _, Some _ => None
  end.
End Steps.

(** *** The status endpoints and the start-up of [ProxyServer] *)

Module ProxyControl.
(** The dictionary of [health_check]. *)
Record health_json := BuildHealth {
  hj_status : string;
  hj_timestamp : string;
  hj_active_mappings : nat
}.

(** The dictionary of [get_status]; [sj_mappings] holds the keys of
    [self.routes], in the order of the map's enumeration. *)
Record status_json := BuildStatusJson {
  sj_status : string;
  sj_active_mappings : nat;
  sj_mappings : list Z;
  sj_timestamp : string
}.

Definition health_check (now : string) (self : ProxyServer.t) : health_json :=
  BuildHealth "healthy" now (size (ProxyServer.routes self)).

Definition get_status (now : string) (self : ProxyServer.t) : status_json :=
  BuildStatusJson (if ProxyServer.is_running self then "running" else "stopped")
    (size (ProxyServer.routes self))
    (map_to_list (ProxyServer.routes self)).*1
    now.

(** A port number that [bind] accepts; any other makes it raise
    [OverflowError]. *)
Definition valid_port (p : Z) : bool := (0 <=? p) && (p <=? 65535).

(** The loop of [find_available_port] over
    [range(start_port, start_port + max_attempts)]; [port_free p] tells
    whether binding [('localhost', p)] succeeds or raises [OSError]. The
    [OverflowError] of a port outside 0..65535 is no [OSError]: it leaves
    the function. *)
Fixpoint find_available_port (port_free : Z → bool) (start_port : Z)
    (max_attempts : nat) : result (option Z) :=
  match max_attempts with
  | O => Return None
  | S n =>
      if valid_port start_port then
        if port_free start_port then Return (Some start_port)
        else find_available_port port_free (start_port + 1) n
      else Raise OverflowError
  end.

(** The proxy object with the attribute [current_port], which exists
    only once [start_background] has set it. *)
Record background := BuildBackground {
  server : ProxyServer.t;
  current_port : option Z
}.

(** [start_background]. What [find_available_port] raises leaves the
    function. The server thread runs [start_server] with the outcome
    [site]; what [start_server] raises there is logged by the thread and
    goes no further. *)
Definition start_background (port_free : Z → bool) (site : result unit)
    (file : mappings_file) (port : Z) (self : background) : result bool * background :=
  match find_available_port port_free port 10 with
  | Raise e => (Raise e, self)
  | Return None => (Return false, self)
  | Return (Some available_port) =>
      (Return true,
       BuildBackground (snd (ProxyServer.start_server site file (server self)))
                       (Some available_port))
  end.
End ProxyControl.

(** *** Helpers of app.py used when mappings and servers are edited *)

Module App.
(** A JSON object with scalar fields, as the records of the data files. *)
Abbreviation item := (gmap string jvalue).

(** How Python orders and adds the values an [id] field may hold: numbers
    (and booleans, which are numbers) among themselves, strings among
    themselves; anything else raises [TypeError]. *)
Definition as_int (v : jvalue) : option Z :=
  match v with
  | JNum z => Some z
  | JBool b => Some (Z.b2z b)
  | JNull | JStr _ => None
  end.

(** [a > b] *)
Definition py_gt (a b : jvalue) : result bool :=
  match as_int a, as_int b with
  | Some x, Some y => Return (y <? x)
  | None, None =>
      match a, b with
      | JStr s, JStr t => Return (String.ltb t s)
      | _, _ => Raise TypeError
      end
  | _, _ => Raise TypeError
  end.

(** [max(values)] for a non-empty sequence, as a left-to-right scan that
    keeps the first of equal maxima. *)
Fixpoint py_max_from (best : jvalue) (values : list jvalue) : result jvalue :=
  match values with
  | [] => Return best
  | v :: rest =>
      match py_gt v best with
      | Return true => py_max_from v rest
      | Return false => py_max_from best rest
      | Raise e => Raise e
      end
  end.

(** [v + 1] *)
Definition py_add_one (v : jvalue) : result jvalue :=
  match as_int v with
  | Some z => Return (JNum (z + 1))
  | None => Raise TypeError
  end.

(** [item.get('id', 0)] *)
Definition get_id (it : item) : jvalue := default (JNum 0) (it !! "id").

Definition get_next_id (data_list : list item) : result jvalue :=
  match get_id <$> data_list with
  | [] => Return (JNum 1)
  | first :: rest =>
      match py_max_from first rest with
      | Return best => py_add_one best
      | Raise e => Raise e
      end
  end.

(** The list object that is the default value of the parameter [ports]
    of [check_server_status_advanced], as created when the function is
    defined. *)
Definition default_ports : list Z := [80; 443; 8080; 3000; 5000].

(** [probe server_ip port] is the status code of
    [requests.get(f"http://{server_ip}:{port}", timeout=2)], or [None]
    when the request raises. *)
Definition responds (probe : string → Z → option Z) (server_ip : string) (port : Z) : bool :=
  match probe server_ip port with
  | Some status_code => status_code <? 500
  | None => false
  end.

(** [check_server_status_advanced]; the second component is the list
    object [ports] after the call. *)
Definition check_server_status_advanced (probe : string → Z → option Z)
    (server_ip : string) (default_port : Z) (ports : list Z)
    : (bool * option Z) * list Z :=
  let ports' :=
    if decide (default_port ∈ ports) then ports else default_port :: ports in
  match list_find (λ port, responds probe server_ip port = true) ports' with
  | Some (_, port) => ((true, Some port), ports')
  | None => ((false, None), ports')
  end.

(** A run of calls that leave [ports] to its default: each call works on
    the list object the previous one left behind. *)
Definition checks_with_default_list (probe : string → Z → option Z)
    (calls : list (string * Z)) (ports : list Z) : list Z :=
  foldl (λ ps call, snd (check_server_status_advanced probe call.1 call.2 ps)) ports calls.
End App.

(** *** Turns of a copy loop *)

Module Turns.
(** The turn is a [select] that ran into its timeout. *)
Definition timed_out (turn : ConnectionHandler.poll_env) : bool :=
  match turn with
  | ConnectionHandler.SelectTimeout => true
  | _ => false
  end.

(** The accept loop goes on after this turn: the [accept] timed out, or
    a connection was accepted and its handler thread started. *)
Definition keeps_listening (turn : AcceptLoop.accept_env) : bool :=
  match turn with
  | AcceptLoop.AcceptTimeout => true
  | AcceptLoop.Accepted _ handler_starts => handler_starts
  | AcceptLoop.AcceptRaises | AcceptLoop.StopCalled => false
  end.

(** The turn is an accepted connection. *)
Definition accepted (turn : AcceptLoop.accept_env) : bool :=
  match turn with
  | AcceptLoop.Accepted _ _ => true
  | _ => false
  end.

(** The trace without its timed-out polls. *)
Definition busy_turns (trace : list ConnectionHandler.poll_env)
    : list ConnectionHandler.poll_env :=
  filter (λ turn, timed_out turn = false) trace.
End Turns.

(** *** Example files and states *)

Module Scenarios.
Definition mapping_9001 : Mapping.t :=
  Mapping.Build (Some 9001) (Some "10.0.0.1") (Some 80) (Some (JBool true)).

Definition mapping_9002 : Mapping.t :=
  Mapping.Build (Some 9002) (Some "10.0.0.2") (Some 8080) None.

(** Two mappings on ports 9001 and 9002, and a forwarder serving them. *)
Definition two_port_file : mappings_file := FileContents [mapping_9001; mapping_9002].

Definition two_port_forwarder : PortForwarder.t :=
  snd (PortForwarder.start_all_forwards Props.always_binds two_port_file
         PortForwarder.init).

(** An active record without [target_port], between two good ones. *)
Definition faulty_mapping : Mapping.t :=
  Mapping.Build (Some 9002) (Some "10.0.0.2") None (Some (JBool true)).

Definition faulty_file : mappings_file :=
  FileContents [mapping_9001; faulty_mapping; Props.scenario_mapping].

(** A second active record for port 9000, with another target. *)
Definition rival_mapping : Mapping.t :=
  Mapping.Build (Some 9000) (Some "10.0.0.9") (Some 80) (Some (JBool true)).

Definition duplicate_file : mappings_file :=
  FileContents [Props.scenario_mapping; rival_mapping].
End Scenarios.

(** A call is absent from an explicit list of calls that all have
    another head symbol. *)
Ltac absent H :=
  repeat (apply elem_of_cons in H as [H|H]; [discriminate H|]);
  by apply not_elem_of_nil in H.

(** ** The forward manager: invariants of [PortForwarder] *)

Section ForwardManager.
Import PortForwarder Props.
Variable env : nat → start_env.

Lemma run_until_accept_port b th :
  ForwardThread.external_port (ForwardThread.run_until_accept b th)
  = ForwardThread.external_port th.
Proof. by destruct b. Qed.

Lemma run_until_accept_active b th :
  ForwardThread.is_active (ForwardThread.run_until_accept b th) = b.
Proof. by destruct b. Qed.

Lemma stop_idempotent th :
  ForwardThread.stop (ForwardThread.stop th) = ForwardThread.stop th.
Proof. destruct th as [? ? ? ? ? [?|]]; reflexivity. Qed.

Lemma consistent_init : consistent init.
Proof.
  split.
  - intros p id H. simpl in H. by rewrite lookup_empty in H.
  - intros id th H. simpl in H. by rewrite lookup_nil in H.
Qed.

(** What [start_forwarding] does to the state, case by case. *)
Lemma start_forwarding_registered p h tp self id :
  active_forwards self !! p = Some id →
  start_forwarding env p h tp self = (false, self).
Proof. intros H. unfold start_forwarding. by rewrite H. Qed.

Lemma start_forwarding_heap p h tp self :
  ∃ new, heap (snd (start_forwarding env p h tp self)) = heap self ++ new.
Proof.
  unfold start_forwarding.
  destruct (active_forwards self !! p); [by exists []; rewrite app_nil_r|].
  destruct (env _); simpl; eauto.
Qed.

Lemma start_forwarding_fresh p h tp self q id :
  active_forwards (snd (start_forwarding env p h tp self)) !! q = Some id →
  active_forwards self !! q = Some id ∨ (length (heap self) ≤ id)%nat.
Proof.
  unfold start_forwarding.
  destruct (active_forwards self !! p) eqn:Hp; [by left|].
  destruct (env _); simpl; [by left| |];
    (destruct (decide (p = q)) as [->|Hne];
     [rewrite lookup_insert_eq; intros [= <-]; by right
     |rewrite lookup_insert_ne by done; by left]).
Qed.

Lemma start_forwarding_dom p h tp self :
  threads_start env →
  dom (active_forwards (snd (start_forwarding env p h tp self)))
  = {[p]} ∪ dom (active_forwards self).
Proof.
  intros Hstart. unfold start_forwarding.
  destruct (active_forwards self !! p) eqn:Hp.
  - simpl. symmetry. apply subseteq_union_1_L, singleton_subseteq_l.
    by eapply elem_of_dom_2.
  - specialize (Hstart (length (heap self))).
    destruct (env _); [done| |]; simpl; by rewrite dom_insert_L.
Qed.

Lemma consistent_start_forwarding p h tp self :
  consistent self → consistent (snd (start_forwarding env p h tp self)).
Proof.
  intros [Ha Hb]. unfold start_forwarding.
  destruct (active_forwards self !! p) eqn:Hp; [by split|].
  assert (Hold : ∀ id th, (id < length (heap self))%nat →
            ∀ x, (heap self ++ [x]) !! id = Some th →
            ForwardThread.is_active th = true →
            ForwardThread.external_port th ≠ p).
  { intros id th Hlt x Hl Hact Heq. subst p.
    rewrite lookup_app_l in Hl by done.
    specialize (Hb _ _ Hl Hact). congruence. }
  assert (Hnew : ∀ id th x, (heap self ++ [x]) !! id = Some th →
            (id < length (heap self))%nat ∧ heap self !! id = Some th
            ∨ id = length (heap self) ∧ th = x).
  { intros id th x Hl. apply lookup_app_Some in Hl as [Hl|[Hge Hl]].
    - left. split; [by eapply lookup_lt_Some|done].
    - right. apply list_lookup_singleton_Some in Hl as [Hz ->].
      split; [lia|done]. }
  destruct (env _); (split; simpl).
  - intros q id Hq. destruct (Ha _ _ Hq) as (th & Hth & Hport).
    exists th. split; [|done]. rewrite lookup_app_l; [done|by eapply lookup_lt_Some].
  - intros id th Hl Hact. destruct (Hnew _ _ _ Hl) as [[_ Hl']|[_ ->]]; [eauto|done].
  - intros q id. destruct (decide (p = q)) as [->|Hne].
    + rewrite lookup_insert_eq. intros [= <-].
      eexists. split; [by apply list_lookup_middle|done].
    + rewrite lookup_insert_ne by done. intros Hq.
      destruct (Ha _ _ Hq) as (th & Hth & Hport).
      exists th. split; [|done]. rewrite lookup_app_l; [done|by eapply lookup_lt_Some].
  - intros id th Hl Hact. destruct (Hnew _ _ _ Hl) as [[Hlt Hl']|[_ ->]]; [|done].
    rewrite lookup_insert_ne by (apply not_eq_sym; eauto). eauto.
  - intros q id. destruct (decide (p = q)) as [->|Hne].
    + rewrite lookup_insert_eq. intros [= <-].
      eexists. split; [by apply list_lookup_middle|done].
    + rewrite lookup_insert_ne by done. intros Hq.
      destruct (Ha _ _ Hq) as (th & Hth & Hport).
      exists th. split; [|done]. rewrite lookup_app_l; [done|by eapply lookup_lt_Some].
  - intros id th Hl Hact. destruct (Hnew _ _ _ Hl) as [[Hlt Hl']|[-> ->]].
    + rewrite lookup_insert_ne by (apply not_eq_sym; eauto). eauto.
    + simpl. by rewrite lookup_insert_eq.
Qed.

(** [stop_forwarding] always leaves the port unregistered, and touches
    at most the thread that was registered for it. *)
Lemma stop_forwarding_active p self :
  active_forwards (snd (stop_forwarding p self)) = delete p (active_forwards self).
Proof.
  unfold stop_forwarding. destruct (active_forwards self !! p) eqn:Hp; simpl; [done|].
  symmetry. by apply delete_id.
Qed.

Lemma stop_forwarding_heap_same p self id :
  active_forwards self !! p ≠ Some id →
  heap (snd (stop_forwarding p self)) !! id = heap self !! id.
Proof.
  intros Hne. unfold stop_forwarding.
  destruct (active_forwards self !! p) as [id'|] eqn:Hp; simpl; [|done].
  apply list_lookup_alter_ne. congruence.
Qed.

Lemma stop_forwarding_heap_stopped p self id :
  active_forwards self !! p = Some id →
  heap (snd (stop_forwarding p self)) !! id = ForwardThread.stop <$> heap self !! id.
Proof.
  intros Hp. unfold stop_forwarding. rewrite Hp. simpl.
  apply list_lookup_alter_eq.
Qed.

Lemma stop_forwarding_heap_length p self :
  length (heap (snd (stop_forwarding p self))) = length (heap self).
Proof.
  unfold stop_forwarding. destruct (active_forwards self !! p); simpl; [|done].
  apply length_alter.
Qed.

Lemma consistent_stop_forwarding p self :
  consistent self → consistent (snd (stop_forwarding p self)).
Proof.
  intros [Ha Hb]. unfold stop_forwarding.
  destruct (active_forwards self !! p) as [idp|] eqn:Hp; [|by split].
  split; simpl.
  - intros q id Hq. apply lookup_delete_Some in Hq as [Hne Hq].
    destruct (Ha _ _ Hq) as (th & Hth & Hport).
    destruct (decide (idp = id)) as [->|Hid].
    + exists (ForwardThread.stop th). split; [|done].
      by rewrite list_lookup_alter_eq, Hth.
    + exists th. split; [|done]. by rewrite list_lookup_alter_ne.
  - intros id th Hl Hact.
    destruct (decide (idp = id)) as [->|Hid].
    + rewrite list_lookup_alter_eq in Hl.
      destruct (heap self !! id); simplify_eq/=.
    + rewrite list_lookup_alter_ne in Hl by done.
      specialize (Hb _ _ Hl Hact).
      rewrite lookup_delete_ne; [done|]. intros Heq. subst p. congruence.
Qed.

(** The loop of [stop_all_forwards]. *)
Lemma stop_each_cons p ports self :
  stop_each (p :: ports) self = stop_each ports (snd (stop_forwarding p self)).
Proof. reflexivity. Qed.

Lemma stop_each_active ports self q :
  active_forwards (stop_each ports self) !! q
  = if decide (q ∈ ports) then None else active_forwards self !! q.
Proof.
  revert self. induction ports as [|p ports IH]; intros self.
  - by rewrite decide_False by apply not_elem_of_nil.
  - rewrite stop_each_cons, IH, stop_forwarding_active.
    destruct (decide (q ∈ ports)) as [Hin|Hout].
    + by rewrite decide_True by (by right).
    + destruct (decide (q = p)) as [->|Hne].
      * rewrite lookup_delete_eq. by rewrite decide_True by left.
      * rewrite lookup_delete_ne by done.
        rewrite decide_False; [done|]. by intros [?|?]%elem_of_cons.
Qed.

Lemma stop_each_heap_length ports self :
  length (heap (stop_each ports self)) = length (heap self).
Proof.
  revert self. induction ports as [|p ports IH]; intros self; [done|].
  by rewrite stop_each_cons, IH, stop_forwarding_heap_length.
Qed.

Lemma stop_each_heap_cases ports self id :
  heap (stop_each ports self) !! id = heap self !! id ∨
  heap (stop_each ports self) !! id = ForwardThread.stop <$> heap self !! id.
Proof.
  revert self. induction ports as [|p ports IH]; intros self; [by left|].
  rewrite stop_each_cons.
  destruct (decide (active_forwards self !! p = Some id)) as [Hp|Hp].
  - destruct (IH (snd (stop_forwarding p self))) as [->| ->];
      rewrite (stop_forwarding_heap_stopped _ _ _ Hp); right; [done|].
    destruct (heap self !! id); simpl; [|done]. by rewrite stop_idempotent.
  - destruct (IH (snd (stop_forwarding p self))) as [->| ->];
      rewrite (stop_forwarding_heap_same _ _ _ Hp); [by left|by right].
Qed.

Lemma stop_each_heap_stopped ports self p id :
  p ∈ ports →
  active_forwards self !! p = Some id →
  heap (stop_each ports self) !! id = ForwardThread.stop <$> heap self !! id.
Proof.
  revert self. induction ports as [|q ports IH]; intros self Hin Hp.
  { by apply not_elem_of_nil in Hin. }
  rewrite stop_each_cons.
  destruct (decide (active_forwards self !! q = Some id)) as [Hq|Hq].
  - destruct (stop_each_heap_cases ports (snd (stop_forwarding q self)) id)
      as [->| ->]; rewrite (stop_forwarding_heap_stopped _ _ _ Hq); [done|].
    destruct (heap self !! id); simpl; [|done]. by rewrite stop_idempotent.
  - apply elem_of_cons in Hin as [->|Hin]; [done|].
    rewrite (IH (snd (stop_forwarding q self)) Hin).
    + by rewrite (stop_forwarding_heap_same _ _ _ Hq).
    + rewrite stop_forwarding_active, lookup_delete_ne; [done|]. congruence.
Qed.

Lemma consistent_stop_each ports self :
  consistent self → consistent (stop_each ports self).
Proof.
  revert self. induction ports as [|p ports IH]; intros self H; [done|].
  rewrite stop_each_cons. by apply IH, consistent_stop_forwarding.
Qed.

Lemma consistent_flag self b :
  consistent self → consistent (Build (active_forwards self) b (heap self)).
Proof. by intros [??]. Qed.

Lemma stop_all_forwards_active self :
  active_forwards (stop_all_forwards self) = ∅.
Proof.
  apply map_eq. intros q. unfold stop_all_forwards. simpl.
  rewrite stop_each_active, lookup_empty.
  destruct (decide _) as [Hin|Hout]; [done|].
  destruct (active_forwards self !! q) as [id|] eqn:Hq; [|done].
  exfalso. apply Hout. apply list_elem_of_fmap. exists (q, id).
  split; [done|]. by apply elem_of_map_to_list.
Qed.

Lemma stop_all_forwards_heap_length self :
  length (heap (stop_all_forwards self)) = length (heap self).
Proof. unfold stop_all_forwards. simpl. apply stop_each_heap_length. Qed.

Lemma stop_all_forwards_stopped self p id :
  active_forwards self !! p = Some id →
  heap (stop_all_forwards self) !! id = ForwardThread.stop <$> heap self !! id.
Proof.
  intros Hp. unfold stop_all_forwards. simpl.
  apply stop_each_heap_stopped with p; [|done].
  apply list_elem_of_fmap. exists (p, id). split; [done|].
  by apply elem_of_map_to_list.
Qed.

Lemma consistent_stop_all_forwards self :
  consistent self → consistent (stop_all_forwards self).
Proof.
  intros H. unfold stop_all_forwards.
  by apply consistent_flag, consistent_stop_each.
Qed.

(** The loop of [start_all_forwards]. *)
Lemma start_each_heap mappings self :
  ∃ new, heap (snd (start_each env mappings self)) = heap self ++ new.
Proof.
  revert self. induction mappings as [|m ms IH]; intros self; simpl.
  { exists []. by rewrite app_nil_r. }
  destruct (Mapping.external_port m) as [p|]; [|exists []; by rewrite app_nil_r].
  destruct (Mapping.target_server m) as [h|]; [|exists []; by rewrite app_nil_r].
  destruct (Mapping.target_port m) as [tp|]; [|exists []; by rewrite app_nil_r].
  destruct (IH (snd (start_forwarding env p h tp self))) as [new2 ->].
  destruct (start_forwarding_heap p h tp self) as [new1 ->].
  exists (new1 ++ new2). by rewrite app_assoc.
Qed.

Lemma start_each_fresh mappings self q id :
  active_forwards (snd (start_each env mappings self)) !! q = Some id →
  active_forwards self !! q = Some id ∨ (length (heap self) ≤ id)%nat.
Proof.
  revert self. induction mappings as [|m ms IH]; intros self; simpl; [by left|].
  destruct (Mapping.external_port m) as [p|]; [|by left].
  destruct (Mapping.target_server m) as [h|]; [|by left].
  destruct (Mapping.target_port m) as [tp|]; [|by left].
  intros [Hq|Hq]%IH.
  - by apply start_forwarding_fresh in Hq.
  - right. destruct (start_forwarding_heap p h tp self) as [new Hnew].
    rewrite Hnew, length_app in Hq. lia.
Qed.

Lemma start_each_dom mappings self :
  threads_start env →
  Forall complete mappings →
  fst (start_each env mappings self) = Return tt ∧
  dom (active_forwards (snd (start_each env mappings self)))
  = ports_of mappings ∪ dom (active_forwards self).
Proof.
  intros Hstart Hall. revert self.
  induction Hall as [|m ms ([p Hp] & [h Hh] & [tp Htp]) _ IH]; intros self; simpl.
  { split; [done|]. unfold ports_of. simpl. by rewrite union_empty_l_L. }
  rewrite Hp, Hh, Htp.
  destruct (IH (snd (start_forwarding env p h tp self))) as [-> ->].
  split; [done|].
  rewrite start_forwarding_dom by done.
  unfold ports_of. simpl. rewrite Hp. simpl.
  rewrite (assoc_L (∪)). f_equal. apply (comm_L (∪)).
Qed.

Lemma consistent_start_each mappings self :
  consistent self → consistent (snd (start_each env mappings self)).
Proof.
  revert self. induction mappings as [|m ms IH]; intros self H; simpl; [done|].
  destruct (Mapping.external_port m) as [p|]; [|done].
  destruct (Mapping.target_server m) as [h|]; [|done].
  destruct (Mapping.target_port m) as [tp|]; [|done].
  by apply IH, consistent_start_forwarding.
Qed.

Lemma start_all_forwards_active file self :
  active_forwards (snd (start_all_forwards env file self))
  = active_forwards (snd (start_each env (load_mappings file) self)).
Proof.
  unfold start_all_forwards.
  by destruct (start_each env (load_mappings file) self) as [[[]|?] ?].
Qed.

Lemma start_all_forwards_heap file self :
  heap (snd (start_all_forwards env file self))
  = heap (snd (start_each env (load_mappings file) self)).
Proof.
  unfold start_all_forwards.
  by destruct (start_each env (load_mappings file) self) as [[[]|?] ?].
Qed.

Lemma start_all_forwards_returns file self :
  fst (start_each env (load_mappings file) self) = Return tt →
  fst (start_all_forwards env file self) = Return tt.
Proof.
  unfold start_all_forwards.
  by destruct (start_each env (load_mappings file) self) as [[[]|?] ?].
Qed.

Lemma consistent_start_all_forwards file self :
  consistent self → consistent (snd (start_all_forwards env file self)).
Proof.
  intros H. apply (consistent_start_each (load_mappings file)) in H.
  destruct H as [Ha Hb].
  split; rewrite start_all_forwards_active, start_all_forwards_heap; done.
Qed.

Lemma reload_mappings_state file self :
  snd (reload_mappings env file self)
  = snd (start_all_forwards env file (stop_all_forwards self)).
Proof.
  unfold reload_mappings.
  by destruct (start_all_forwards env file (stop_all_forwards self)) as [[?|?] ?].
Qed.

Lemma reload_mappings_returns file self :
  fst (start_all_forwards env file (stop_all_forwards self)) = Return tt →
  ∃ st, fst (reload_mappings env file self) = Return st.
Proof.
  unfold reload_mappings.
  destruct (start_all_forwards env file (stop_all_forwards self)) as [[?|?] ?];
    simpl; [eauto|done].
Qed.

Lemma reachable_consistent self : reachable env self → consistent self.
Proof.
  induction 1 as [| | | | |self file _ IH].
  - apply consistent_init.
  - by apply consistent_start_forwarding.
  - by apply consistent_stop_forwarding.
  - by apply consistent_start_all_forwards.
  - by apply consistent_stop_all_forwards.
  - rewrite reload_mappings_state.
    by apply consistent_start_all_forwards, consistent_stop_all_forwards.
Qed.
End ForwardManager.

(** ** The forward manager: what a start leaves behind *)

Section ForwardManagerMore.
Import PortForwarder Props Steps.
Variable env : nat → start_env.

Lemma stop_stopped th : stopped (ForwardThread.stop th).
Proof. split; [done|]. simpl. by destruct (ForwardThread.server_socket th). Qed.

Lemma start_forwarding_keeps_registration p h tp self q id :
  active_forwards self !! q = Some id →
  active_forwards (snd (start_forwarding env p h tp self)) !! q = Some id.
Proof.
  intros Hq. unfold start_forwarding.
  destruct (active_forwards self !! p) eqn:Hp; [done|].
  destruct (env _); simpl; [done| |];
    (rewrite lookup_insert_ne; [done|]; intros ->; congruence).
Qed.

Lemma start_forwarding_other_port p h tp self q :
  q ≠ p →
  active_forwards (snd (start_forwarding env p h tp self)) !! q
  = active_forwards self !! q.
Proof.
  intros Hne. unfold start_forwarding.
  destruct (active_forwards self !! p); [done|].
  destruct (env _); simpl; [done| |]; by rewrite lookup_insert_ne.
Qed.

Lemma start_forwarding_heap_lookup p h tp self id th :
  heap self !! id = Some th →
  heap (snd (start_forwarding env p h tp self)) !! id = Some th.
Proof.
  intros Hid. destruct (start_forwarding_heap env p h tp self) as [new ->].
  by apply lookup_app_l_Some.
Qed.

Lemma start_forwarding_is_running p h tp self :
  is_running (snd (start_forwarding env p h tp self)) = is_running self.
Proof.
  unfold start_forwarding. destruct (active_forwards self !! p); [done|].
  by destruct (env _).
Qed.

Lemma start_each_keeps_registration mappings self q id :
  active_forwards self !! q = Some id →
  active_forwards (snd (start_each env mappings self)) !! q = Some id.
Proof.
  revert self. induction mappings as [|m ms IH]; intros self Hq; simpl; [done|].
  destruct (Mapping.external_port m) as [p|]; [|done].
  destruct (Mapping.target_server m) as [h|]; [|done].
  destruct (Mapping.target_port m) as [tp|]; [|done].
  by apply IH, start_forwarding_keeps_registration.
Qed.

Lemma start_each_heap_lookup mappings self id th :
  heap self !! id = Some th →
  heap (snd (start_each env mappings self)) !! id = Some th.
Proof.
  intros Hid. destruct (start_each_heap env mappings self) as [new ->].
  by apply lookup_app_l_Some.
Qed.

Lemma start_each_is_running mappings self :
  is_running (snd (start_each env mappings self)) = is_running self.
Proof.
  revert self. induction mappings as [|m ms IH]; intros self; simpl; [done|].
  destruct (Mapping.external_port m) as [p|]; [|done].
  destruct (Mapping.target_server m) as [h|]; [|done].
  destruct (Mapping.target_port m) as [tp|]; [|done].
  by rewrite IH, start_forwarding_is_running.
Qed.

Lemma start_each_other_ports mappings self q :
  (∀ m, m ∈ mappings → Mapping.external_port m ≠ Some q) →
  active_forwards (snd (start_each env mappings self)) !! q = active_forwards self !! q.
Proof.
  revert self. induction mappings as [|m ms IH]; intros self Hq; simpl; [done|].
  pose proof (Hq m (list_elem_of_here _ _)) as Hm.
  destruct (Mapping.external_port m) as [p|]; [|done].
  destruct (Mapping.target_server m) as [h|]; [|done].
  destruct (Mapping.target_port m) as [tp|]; [|done].
  rewrite IH by (intros m' Hin; apply Hq; by right).
  apply start_forwarding_other_port. congruence.
Qed.

Lemma start_each_app pre rest self :
  Forall complete pre →
  start_each env (pre ++ rest) self = start_each env rest (snd (start_each env pre self)).
Proof.
  intros Hpre. revert self.
  induction Hpre as [|m ms ([p Hp] & [h Hh] & [tp Htp]) _ IH]; intros self; simpl; [done|].
  rewrite Hp, Hh, Htp. apply IH.
Qed.

Lemma start_each_missing_key bad post self k :
  missing_key bad = Some k →
  start_each env (bad :: post) self = (Raise (KeyError k), self).
Proof.
  unfold missing_key. simpl.
  destruct (Mapping.external_port bad); [|by intros [= <-]].
  destruct (Mapping.target_server bad); [|by intros [= <-]].
  destruct (Mapping.target_port bad); [done|by intros [= <-]].
Qed.

Lemma start_forwarding_new_thread p h tp self :
  env (length (heap self)) ≠ StartRaises →
  active_forwards self !! p = None →
  ∃ th,
    active_forwards (snd (start_forwarding env p h tp self)) !! p
    = Some (length (heap self)) ∧
    heap (snd (start_forwarding env p h tp self)) !! length (heap self) = Some th ∧
    ForwardThread.external_port th = p ∧
    ForwardThread.target_host th = h ∧
    ForwardThread.target_port th = tp ∧
    ForwardThread.is_active th = bool_decide (env (length (heap self)) = BindOk).
Proof.
  intros Hstart Hp. unfold start_forwarding. rewrite Hp.
  destruct (env (length (heap self))); [done| |]; simpl;
    (eexists; split; [by rewrite lookup_insert_eq|];
     split; [by apply list_lookup_middle|done]).
Qed.

Lemma start_forwarding_origin p h tp self q id :
  active_forwards (snd (start_forwarding env p h tp self)) !! q = Some id →
  active_forwards self !! q = Some id ∨
  (q = p ∧ id = length (heap self) ∧
   ∃ th, heap (snd (start_forwarding env p h tp self)) !! id = Some th ∧
         ForwardThread.external_port th = p ∧
         ForwardThread.target_host th = h ∧
         ForwardThread.target_port th = tp).
Proof.
  unfold start_forwarding.
  destruct (active_forwards self !! p) eqn:Hp; [by left|].
  destruct (env _); simpl; [by left| |];
    (destruct (decide (p = q)) as [->|Hne];
     [rewrite lookup_insert_eq; intros [= <-]; right;
      split; [done|]; split; [done|];
      eexists; split; [by apply list_lookup_middle|done]
     |rewrite lookup_insert_ne by done; by left]).
Qed.

Lemma start_each_origin mappings self q id :
  active_forwards (snd (start_each env mappings self)) !! q = Some id →
  active_forwards self !! q = Some id ∨
  ((length (heap self) ≤ id)%nat ∧
   ∃ m th, m ∈ mappings ∧
           Mapping.external_port m = Some q ∧
           heap (snd (start_each env mappings self)) !! id = Some th ∧
           ForwardThread.external_port th = q ∧
           Mapping.target_server m = Some (ForwardThread.target_host th) ∧
           Mapping.target_port m = Some (ForwardThread.target_port th)).
Proof.
  revert self. induction mappings as [|m ms IH]; intros self; simpl; [by left|].
  destruct (Mapping.external_port m) as [p|] eqn:Hp; [|by left].
  destruct (Mapping.target_server m) as [h|] eqn:Hh; [|by left].
  destruct (Mapping.target_port m) as [tp|] eqn:Htp; [|by left].
  destruct (start_forwarding_heap env p h tp self) as [new Hnew].
  intros [Hq|(Hlen & m' & th & Hin & Hm' & Hth & Hrest)]%IH.
  - apply start_forwarding_origin in Hq
      as [Hq|(-> & -> & th & Hth & Hport & Hhost & Htport)]; [by left|].
    right. split; [done|]. exists m, th. split; [left|]. split; [done|].
    split; [by apply start_each_heap_lookup|]. by rewrite Hhost, Htport.
  - right. split; [rewrite Hnew, length_app in Hlen; lia|].
    exists m', th. split; [by right|done].
Qed.

Lemma ports_of_elem mappings m p :
  m ∈ mappings → Mapping.external_port m = Some p → p ∈ ports_of mappings.
Proof.
  intros Hin Hp. unfold ports_of. apply elem_of_list_to_set, list_elem_of_omap.
  by exists m.
Qed.
End ForwardManagerMore.

(** ** Reload, start and the live set *)

Section ForwardManagerClaims.
Import PortForwarder Props.

Lemma scenario_forwarder_reachable : reachable always_binds scenario_forwarder.
Proof. apply reach_start_all_forwards, reach_init. Qed.

Lemma always_binds_threads_start : threads_start always_binds.
Proof. intros id. discriminate. Qed.

Lemma scenario_file_complete : Forall complete (load_mappings scenario_file).
Proof.
  change (load_mappings scenario_file) with [scenario_mapping].
  constructor; [|constructor].
  repeat split; eexists; reflexivity.
Qed.

(** C1, as stated, fails: reloading the very file the forwarder was
    started from does not leave the listener of port 9000 untouched. The
    thread object registered before the reload has been stopped and a new
    thread object is registered in its place. *)
Lemma reload_touches_unchanged_port :
  ¬ (∀ env file self p,
       reachable env self →
       mapping_unchanged file self p →
       listener_untouched self (snd (reload_mappings env file self)) p).
Proof.
  intros Hclaim.
  destruct (Hclaim always_binds scenario_file scenario_forwarder 9000) as [Hsame _].
  - apply scenario_forwarder_reachable.
  - exists 0%nat, (ForwardThread.Build 9000 "127.0.0.1" 9100 true 0 (Some Listening)).
    split; [reflexivity|]. split; [reflexivity|]. split.
    + exists scenario_mapping. split; [|reflexivity]. vm_compute. left.
    + intros m Hm _. vm_compute in Hm.
      apply list_elem_of_singleton in Hm as ->. by split.
  - vm_compute in Hsame. discriminate Hsame.
Qed.

(** C1, amended: [reload_mappings] restarts every listener. Each thread
    that was registered before the call has had [stop] applied to it,
    whether or not its mapping changed. Each thread registered after the
    call is an object constructed during the call, made for an active
    record of the file that names its port and carrying that record's
    target. And when every active record is complete and no thread start
    raises, every external port named by an active record has such a
    thread registered after the call. *)
Theorem reload_restarts_every_listener env file self :
  reachable env self →
  (∀ p id, active_forwards self !! p = Some id →
     ∃ th, heap self !! id = Some th ∧
           heap (snd (reload_mappings env file self)) !! id
           = Some (ForwardThread.stop th)) ∧
  (∀ p id, active_forwards (snd (reload_mappings env file self)) !! p = Some id →
     (length (heap self) ≤ id)%nat ∧
     ∃ m th, m ∈ load_mappings file ∧
             Mapping.external_port m = Some p ∧
             heap (snd (reload_mappings env file self)) !! id = Some th ∧
             ForwardThread.external_port th = p ∧
             Mapping.target_server m = Some (ForwardThread.target_host th) ∧
             Mapping.target_port m = Some (ForwardThread.target_port th)) ∧
  (threads_start env →
   Forall complete (load_mappings file) →
   ∀ m p, m ∈ load_mappings file →
          Mapping.external_port m = Some p →
          is_Some (active_forwards (snd (reload_mappings env file self)) !! p)).
Proof.
  intros Hreach. apply reachable_consistent in Hreach as [Ha _].
  rewrite reload_mappings_state, start_all_forwards_active, start_all_forwards_heap.
  destruct (start_each_heap env (load_mappings file) (stop_all_forwards self))
    as [new Hnew].
  split; [|split].
  - intros p id Hp. destruct (Ha _ _ Hp) as (th & Hth & _).
    exists th. split; [done|].
    rewrite Hnew, lookup_app_l.
    + by rewrite (stop_all_forwards_stopped _ _ _ Hp), Hth.
    + rewrite stop_all_forwards_heap_length. by eapply lookup_lt_Some.
  - intros p id [Hp|[Hlen Hmade]]%start_each_origin.
    + by rewrite stop_all_forwards_active, lookup_empty in Hp.
    + by rewrite stop_all_forwards_heap_length in Hlen.
  - intros Hstart Hall m p Hin Hp. apply (elem_of_dom (D:=gset Z)).
    destruct (start_each_dom env (load_mappings file) (stop_all_forwards self)
                Hstart Hall) as [_ ->].
    apply elem_of_union_l. by eapply ports_of_elem.
Qed.

Lemma reload_restarts_every_listener_witness :
  (∃ th, heap scenario_forwarder !! 0%nat = Some th ∧
         heap (snd (reload_mappings always_binds scenario_file scenario_forwarder)) !! 0%nat
         = Some (ForwardThread.stop th)) ∧
  is_Some (active_forwards
             (snd (reload_mappings always_binds scenario_file scenario_forwarder)) !! 9000).
Proof.
  destruct (reload_restarts_every_listener always_binds scenario_file
              scenario_forwarder scenario_forwarder_reachable)
    as (Hstopped & _ & Hstarted).
  split.
  - apply (Hstopped 9000). reflexivity.
  - apply (Hstarted always_binds_threads_start scenario_file_complete scenario_mapping).
    + left.
    + reflexivity.
Defined.




(** C6, as stated, fails for [start_all_forwards]: run on the same
    (empty) snapshot from two reachable forwarders it leaves different
    sets of registered ports, because a port registered earlier and no
    longer in the snapshot stays registered. *)
Lemma start_all_keeps_stale_listeners :
  ¬ (∀ env file s1 s2,
       reachable env s1 → reachable env s2 →
       dom (active_forwards (snd (start_all_forwards env file s1)))
       = dom (active_forwards (snd (start_all_forwards env file s2)))).
Proof.
  intros Hclaim.
  specialize (Hclaim always_binds (FileContents []) init scenario_forwarder
                (reach_init _) scenario_forwarder_reachable).
  assert (H9000 : 9000 ∈ dom (active_forwards
            (snd (start_all_forwards always_binds (FileContents []) scenario_forwarder)))).
  { apply elem_of_dom. by exists 0%nat. }
  rewrite <- Hclaim in H9000. by apply elem_of_dom in H9000 as [? ?].
Qed.

(** C6, amended: in every reachable state no two threads with a set
    [is_active] flag serve the same external port, and [start_forwarding]
    on a registered port returns [False] and changes nothing. When every
    active record of the file is complete and no [Thread.start] raises,
    [reload_mappings] returns and leaves registered exactly the external
    ports of the list that [load_mappings] yields, whatever was registered
    before; [start_all_forwards] returns and leaves registered those
    ports together with the ports registered before the call. *)
Theorem live_set_after_start_and_reload env file self p h tp :
  reachable env self →
  (∀ i j ti tj,
     heap self !! i = Some ti → heap self !! j = Some tj →
     ForwardThread.is_active ti = true → ForwardThread.is_active tj = true →
     ForwardThread.external_port ti = ForwardThread.external_port tj →
     i = j) ∧
  (is_Some (active_forwards self !! p) →
     start_forwarding env p h tp self = (false, self)) ∧
  (threads_start env →
   Forall complete (load_mappings file) →
   (∃ st, fst (reload_mappings env file self) = Return st) ∧
   dom (active_forwards (snd (reload_mappings env file self)))
   = ports_of (load_mappings file) ∧
   fst (start_all_forwards env file self) = Return tt ∧
   dom (active_forwards (snd (start_all_forwards env file self)))
   = ports_of (load_mappings file) ∪ dom (active_forwards self)).
Proof.
  intros Hreach.
  apply reachable_consistent in Hreach as [_ Hb].
  split; [|split].
  - intros i j ti tj Hi Hj Hai Haj Hport.
    pose proof (Hb _ _ Hi Hai) as Hri. pose proof (Hb _ _ Hj Haj) as Hrj.
    rewrite Hport in Hri. congruence.
  - intros [id Hid]. by eapply start_forwarding_registered.
  - intros Hstart Hall. split; [|split; [|split]].
    + apply reload_mappings_returns, start_all_forwards_returns.
      by apply start_each_dom.
    + rewrite reload_mappings_state, start_all_forwards_active.
      destruct (start_each_dom env (load_mappings file) (stop_all_forwards self)
                  Hstart Hall) as [_ ->].
      by rewrite stop_all_forwards_active, dom_empty_L, union_empty_r_L.
    + apply start_all_forwards_returns. by apply start_each_dom.
    + rewrite start_all_forwards_active. by apply start_each_dom.
Qed.

Lemma live_set_after_start_and_reload_witness :
  dom (active_forwards (snd (reload_mappings always_binds scenario_file scenario_forwarder)))
  = ports_of (load_mappings scenario_file) ∧
  start_forwarding always_binds 9000 "127.0.0.1" 9100 scenario_forwarder
  = (false, scenario_forwarder).
Proof.
  destruct (live_set_after_start_and_reload always_binds scenario_file
              scenario_forwarder 9000 "127.0.0.1" 9100
              scenario_forwarder_reachable) as (_ & Hstart & Hsets).
  destruct (Hsets always_binds_threads_start scenario_file_complete)
    as (_ & Hdom & _).
  split; [exact Hdom|]. apply Hstart. by exists 0%nat.
Defined.
End ForwardManagerClaims.

(** ** One relayed connection *)

Section SessionClaims.
Import ConnectionHandler Props.

Lemma after_turn_calls rcv dlv ops idle r :
  calls (after_turn rcv dlv ops idle r) = ops ++ calls r.
Proof. reflexivity. Qed.

Lemma forward_calls src dst trace :
  Forall (copy_call src dst) (calls (forward src dst trace)).
Proof.
  assert (Hsel : copy_call src dst (OpSelect src)) by by left.
  assert (Hrcv : copy_call src dst (OpRecv src)) by by (right; left).
  assert (Hsnd : ∀ data, copy_call src dst (OpSend dst data))
    by (intros data; right; right; by exists data).
  induction trace as [|[| | |data send] rest IH]; simpl;
    [| | | |destruct data as [|b data]; [|destruct send as [|n]; simpl]];
    repeat first [assumption | apply Forall_nil_2 | apply Forall_cons_2; [solve [auto]|]].
Qed.

(** With no short [send] the copy loop is faithful: what it hands to
    the receiving side is what it took from the sending side. *)
Lemma forward_faithful_when_sends_complete src dst trace :
  sends_complete trace →
  status (forward src dst trace) ≠ Failed →
  delivered (forward src dst trace) = received (forward src dst trace).
Proof.
  induction 1 as [|[| | |data send] rest Hturn _ IH]; simpl; try done.
  destruct data as [|b data]; [done|].
  destruct send as [|n]; simpl; [done|].
  intros Hst. rewrite IH by done.
  simpl in Hturn. by rewrite (take_ge (b :: data)) by done.
Qed.

Lemma join_bounds timeout finish now :
  (now ≤ join timeout finish now ≤ now + timeout)%nat.
Proof. unfold join. destruct finish; lia. Qed.

Lemma forward_idle src dst n :
  status (forward src dst (replicate n SelectTimeout)) = Polling.
Proof. induction n as [|n IH]; [done|]. simpl. exact IH. Qed.

Lemma run_clock_when_relaying timeout e :
  relay_started e →
  clock (snd (run timeout e init))
  = join timeout
      (finish_time (forward TargetSocket ClientSocket (target_to_client e)))
      (join timeout
         (finish_time (forward ClientSocket TargetSocket (client_to_target e))) 0).
Proof.
  intros (H1 & H2 & H3 & H4 & H5 & H6).
  destruct e as [r1 r2 r3 r4 r5 r6 c2t t2c]. simpl in *. by subst.
Qed.

(** C2 is violated by the code: [forward] discards the value of
    [dst.send]. On [short_send_trace] the client's bytes [abcd] reach
    the target as [abd]: the byte that the short [send] did not accept
    is never offered again, and the loop ends normally at end of stream. *)
Theorem short_send_drops_a_byte :
  received (forward ClientSocket TargetSocket short_send_trace)
    = [x61; x62; x63; x64]%byte ∧
  delivered (forward ClientSocket TargetSocket short_send_trace)
    = [x61; x62; x64]%byte ∧
  status (forward ClientSocket TargetSocket short_send_trace) = EndOfStream.
Proof. by repeat split. Qed.







End SessionClaims.

(** ** The HTTP proxy *)

Section ProxyClaims.
Import ProxyServer Props.

(** The search for the target reads [request.port] in its first turn, so
    it raises as soon as there is a first turn. *)
Lemma find_target_url_empty request self :
  routes self = ∅ → find_target_url request self = Return None.
Proof. intros H. unfold find_target_url. by rewrite H, map_to_list_empty. Qed.

Lemma find_target_url_nonempty request self :
  routes self ≠ ∅ → find_target_url request self = Raise (AttributeError "port").
Proof.
  intros H. unfold find_target_url.
  destruct (map_to_list (routes self)) as [|[port url] rest] eqn:Hitems; [|done].
  by apply map_to_list_empty_iff in Hitems.
Qed.

Lemma load_each_formatted mappings routes :
  routes_formatted routes → routes_formatted (snd (load_each mappings routes)).
Proof.
  revert routes. induction mappings as [|m ms IH]; intros routes H; simpl; [done|].
  destruct (Mapping.get_is_active m); [|by apply IH].
  destruct (Mapping.external_port m) as [p|]; [|done].
  destruct (Mapping.target_server m) as [h|]; [|done].
  destruct (Mapping.target_port m) as [tp|]; [|done].
  apply IH. intros q url. destruct (decide (p = q)) as [->|Hne].
  - rewrite lookup_insert_eq. intros [= <-]. eauto.
  - rewrite lookup_insert_ne by done. apply H.
Qed.

Lemma load_mappings_formatted file self :
  routes_formatted (routes self) →
  routes_formatted (routes (snd (load_mappings file self))).
Proof.
  intros H. destruct file as [| |mappings]; simpl; [done|done|].
  apply load_each_formatted. intros p url Hp. by rewrite lookup_empty in Hp.
Qed.

Lemma reachable_formatted self : reachable self → routes_formatted (routes self).
Proof.
  induction 1 as [|self file _ IH|self site file _ IH|self _ IH].
  - intros p url H. simpl in H. by rewrite lookup_empty in H.
  - by apply load_mappings_formatted.
  - unfold start_server. destruct (is_running self); [done|].
    destruct site; by apply load_mappings_formatted.
  - unfold stop_server. by destruct (is_running self).
Qed.

Lemma target_url_nonempty h tp path :
  String.eqb (target_url_of h tp +:+ path) EmptyString = false.
Proof. reflexivity. Qed.

(** The loading loop, piece by piece. *)
Lemma load_each_app pre rest routes :
  Forall passable pre →
  load_each (pre ++ rest) routes = load_each rest (snd (load_each pre routes)).
Proof.
  intros Hpre. revert routes.
  induction Hpre as [|m ms Hm _ IH]; intros routes; simpl; [done|].
  destruct (Mapping.get_is_active m) eqn:Hact; [|apply IH].
  destruct Hm as [Hm|([p ->] & [h ->] & [tp ->])]; [congruence|]. apply IH.
Qed.

Lemma load_each_keeps mappings routes p :
  is_Some (routes !! p) → is_Some (snd (load_each mappings routes) !! p).
Proof.
  revert routes. induction mappings as [|m ms IH]; intros routes H; simpl; [done|].
  destruct (Mapping.get_is_active m); [|by apply IH].
  destruct (Mapping.external_port m) as [q|]; [|done].
  destruct (Mapping.target_server m) as [h|]; [|done].
  destruct (Mapping.target_port m) as [tp|]; [|done].
  apply IH. rewrite lookup_insert_is_Some. destruct (decide (q = p)); auto.
Qed.

Lemma load_each_other_ports mappings routes p :
  (∀ m, m ∈ mappings → Mapping.get_is_active m = true →
        Mapping.external_port m ≠ Some p) →
  snd (load_each mappings routes) !! p = routes !! p.
Proof.
  revert routes. induction mappings as [|m ms IH]; intros routes H; simpl; [done|].
  assert (Hms : ∀ m', m' ∈ ms → Mapping.get_is_active m' = true →
                      Mapping.external_port m' ≠ Some p)
    by (intros m' Hin; apply H; by right).
  pose proof (H m (list_elem_of_here _ _)) as Hm.
  destruct (Mapping.get_is_active m); [|by apply IH].
  destruct (Mapping.external_port m) as [q|]; [|done].
  destruct (Mapping.target_server m) as [h|]; [|done].
  destruct (Mapping.target_port m) as [tp|]; [|done].
  rewrite IH by done. apply lookup_insert_ne. intros ->. by apply Hm.
Qed.

Lemma scenario_proxy_reachable : reachable scenario_proxy.
Proof. apply reach_load_mappings, reach_init. Qed.

(** C3 is violated by the code: the search for the target compares
    [request.port] with each routed port, and an [aiohttp.web.Request]
    has no attribute [port]. Only while the route table is empty does the
    handler answer 404. As soon as the table holds a route the search
    raises [AttributeError] in its first turn, before the [try] block:
    for every request, on a routed port or not, and whatever the upstream
    would do, the handler ends in that exception and builds neither its
    404 nor its 500 response. So it is for a request to the proxy that
    has loaded the scenario file, with an upstream that refuses. *)
Theorem proxy_handler_raises_attribute_error upstream request self :
  (routes self = ∅ →
     proxy_handler upstream request self = Return route_not_found) ∧
  (routes self ≠ ∅ →
     find_target_url request self = Raise (AttributeError "port") ∧
     proxy_handler upstream request self = Raise (AttributeError "port")) ∧
  proxy_handler refusing_upstream scenario_request scenario_proxy
  = Raise (AttributeError "port").
Proof.
  split; [|split].
  - intros Hempty. unfold proxy_handler. by rewrite find_target_url_empty.
  - intros Hroutes. unfold proxy_handler. by rewrite find_target_url_nonempty.
  - reflexivity.
Qed.

(** C9 is violated by the code: [reload_mappings] awaits the value of
    the plain function [load_mappings], which is [None]. The route table
    has been rebuilt by then, but the [await] raises [TypeError], so for
    every request, at every file and state, the handler ends in an
    exception and the JSON answer with the mapping count and the
    timestamp is never built. On the scenario file the rebuilt table is
    the single route 9000 -> http://127.0.0.1:9100. *)
Theorem reload_handler_raises_type_error now file self :
  fst (reload_mappings now file self) = Raise TypeError ∧
  snd (reload_mappings now file self) = snd (load_mappings file self) ∧
  map_to_list (routes (snd (reload_mappings now scenario_file init)))
  = [(9000, "http://127.0.0.1:9100")].
Proof. by destruct file. Qed.

(** C10: a record without the [is_active] key counts as active in both
    engines. The forwarder's [load_mappings] keeps it in the list it
    returns. The proxy's [load_mappings] gives its external port a
    route, provided the loop reaches the record (every record before it
    in the file is switched off or complete) and the record is complete;
    that route is the record's own URL unless a later active record
    names the same port. *)
Theorem missing_is_active_means_active m ms pre post p h tp self :
  Mapping.is_active m = None →
  Mapping.get_is_active m = true ∧
  (m ∈ ms → m ∈ PortForwarder.load_mappings (FileContents ms)) ∧
  (Forall passable pre →
   Mapping.external_port m = Some p →
   Mapping.target_server m = Some h →
   Mapping.target_port m = Some tp →
   is_Some (routes (snd (load_mappings (FileContents (pre ++ m :: post)) self)) !! p) ∧
   ((∀ m', m' ∈ post → Mapping.get_is_active m' = true →
           Mapping.external_port m' ≠ Some p) →
    routes (snd (load_mappings (FileContents (pre ++ m :: post)) self)) !! p
    = Some (target_url_of h tp))).
Proof.
  intros Hkey.
  assert (Hact : Mapping.get_is_active m = true)
    by (unfold Mapping.get_is_active; by rewrite Hkey).
  split; [done|]. split.
  - intros Hin. simpl. by apply list_elem_of_filter.
  - intros Hpre Hp Hh Htp. simpl.
    rewrite load_each_app by done. simpl. rewrite Hact, Hp, Hh, Htp. split.
    + apply load_each_keeps. rewrite lookup_insert_eq. by eexists.
    + intros Hpost. rewrite load_each_other_ports by done.
      by rewrite lookup_insert_eq.
Qed.

Lemma missing_is_active_means_active_witness :
  legacy_mapping ∈ PortForwarder.load_mappings (FileContents [legacy_mapping]) ∧
  routes (snd (load_mappings (FileContents ([] ++ legacy_mapping :: [])) init)) !! 9000
  = Some (target_url_of "127.0.0.1" 9100).
Proof.
  destruct (missing_is_active_means_active legacy_mapping [legacy_mapping] [] []
              9000 "127.0.0.1" 9100 init eq_refl) as (_ & Hfwd & Hproxy).
  split.
  - apply Hfwd. apply list_elem_of_here.
  - destruct (Hproxy (Forall_nil_2 _) eq_refl eq_refl eq_refl) as [_ Hurl].
    apply Hurl. intros m' Hin. by apply not_elem_of_nil in Hin.
Defined.
End ProxyClaims.

(** ** More on the forward manager *)

Section ForwardManagerExtras.
Import PortForwarder Props Steps.

Lemma two_port_forwarder_reachable :
  reachable always_binds Scenarios.two_port_forwarder.
Proof. apply reach_start_all_forwards, reach_init. Qed.

(** X1: [stop_forwarding] touches its own port only. On a port that is
    not registered it returns [False] and changes nothing. On a
    registered port it returns [True], unregisters the port and stops its
    thread; every other registered port keeps its thread object, and
    that object is left as it was. *)
Theorem stop_forwarding_only_touches_its_port env p self :
  reachable env self →
  (active_forwards self !! p = None → stop_forwarding p self = (false, self)) ∧
  (∀ id, active_forwards self !! p = Some id →
     fst (stop_forwarding p self) = true ∧
     active_forwards (snd (stop_forwarding p self)) !! p = None ∧
     ∃ th, heap self !! id = Some th ∧
           heap (snd (stop_forwarding p self)) !! id = Some (ForwardThread.stop th)) ∧
  (∀ q id, q ≠ p → active_forwards self !! q = Some id →
     active_forwards (snd (stop_forwarding p self)) !! q = Some id ∧
     heap (snd (stop_forwarding p self)) !! id = heap self !! id).
Proof.
  intros [Ha _]%reachable_consistent. split; [|split].
  - intros Hp. unfold stop_forwarding. by rewrite Hp.
  - intros id Hp. destruct (Ha _ _ Hp) as (th & Hth & _).
    split; [unfold stop_forwarding; by rewrite Hp|].
    split; [by rewrite stop_forwarding_active, lookup_delete_eq|].
    exists th. split; [done|].
    by rewrite (stop_forwarding_heap_stopped _ _ _ Hp), Hth.
  - intros q id Hne Hq. split.
    + by rewrite stop_forwarding_active, lookup_delete_ne.
    + apply stop_forwarding_heap_same. intros Hp.
      destruct (Ha _ _ Hq) as (th & Hth & Hport).
      destruct (Ha _ _ Hp) as (th' & Hth' & Hport'). congruence.
Qed.

Lemma stop_forwarding_only_touches_its_port_witness :
  active_forwards (snd (stop_forwarding 9001 Scenarios.two_port_forwarder)) !! 9002
  = Some 1%nat ∧
  heap (snd (stop_forwarding 9001 Scenarios.two_port_forwarder)) !! 1%nat
  = heap Scenarios.two_port_forwarder !! 1%nat.
Proof.
  destruct (stop_forwarding_only_touches_its_port always_binds 9001
              Scenarios.two_port_forwarder two_port_forwarder_reachable) as (_ & _ & Hothers).
  apply Hothers; [done|reflexivity].
Defined.

(** X2: [start_forwarding] never disturbs what is already there: the
    registration of every other port is unchanged, a registered port
    keeps the thread it has, and no existing thread object is altered. *)
Theorem start_forwarding_leaves_others env p h tp self :
  (∀ q, q ≠ p →
     active_forwards (snd (start_forwarding env p h tp self)) !! q
     = active_forwards self !! q) ∧
  (∀ q id, active_forwards self !! q = Some id →
     active_forwards (snd (start_forwarding env p h tp self)) !! q = Some id) ∧
  (∀ id th, heap self !! id = Some th →
     heap (snd (start_forwarding env p h tp self)) !! id = Some th).
Proof.
  split; [|split].
  - intros q Hne. by apply start_forwarding_other_port.
  - intros q id. apply start_forwarding_keeps_registration.
  - intros id th. apply start_forwarding_heap_lookup.
Qed.

(** X3: after [stop_all_forwards] no port is registered, [is_running]
    is [False], every thread that was registered has its flag reset and
    its socket closed, no thread object at all has its flag set, and
    [get_status] reports zero forwards. *)
Theorem stop_all_forwards_stops_everything env self :
  reachable env self →
  active_forwards (stop_all_forwards self) = ∅ ∧
  is_running (stop_all_forwards self) = false ∧
  (∀ p id, active_forwards self !! p = Some id →
     ∃ th, heap (stop_all_forwards self) !! id = Some th ∧ stopped th) ∧
  (∀ id th, heap (stop_all_forwards self) !! id = Some th →
     ForwardThread.is_active th = false) ∧
  get_status (stop_all_forwards self) = BuildStatus false 0 [].
Proof.
  intros Hreach. pose proof (reachable_consistent _ _ Hreach) as [Ha _].
  pose proof (consistent_stop_all_forwards _ (reachable_consistent _ _ Hreach))
    as [_ Hb'].
  pose proof (stop_all_forwards_active self) as Hempty.
  split; [done|]. split; [done|]. split; [|split].
  - intros p id Hp. destruct (Ha _ _ Hp) as (th & Hth & _).
    exists (ForwardThread.stop th). split; [|apply stop_stopped].
    by rewrite (stop_all_forwards_stopped _ _ _ Hp), Hth.
  - intros id th Hth. destruct (ForwardThread.is_active th) eqn:Hact; [|done].
    specialize (Hb' _ _ Hth Hact). by rewrite Hempty, lookup_empty in Hb'.
  - unfold get_status. rewrite Hempty. by rewrite map_to_list_empty.
Qed.

Lemma stop_all_forwards_stops_everything_witness :
  get_status (stop_all_forwards Scenarios.two_port_forwarder) = BuildStatus false 0 [].
Proof.
  destruct (stop_all_forwards_stops_everything always_binds
              Scenarios.two_port_forwarder two_port_forwarder_reachable) as (_ & _ & _ & _ & Hstatus).
  exact Hstatus.
Defined.

(** X4: when an active record lacks one of the keys [external_port],
    [target_server], [target_port], [start_all_forwards] raises
    [KeyError] for the first key that is missing. The records before it
    have been started and stay started, the records after it are not
    looked at, and [is_running] keeps the value it had. *)
Theorem start_all_forwards_stops_at_missing_key env file pre bad post k self :
  load_mappings file = pre ++ bad :: post →
  Forall complete pre →
  missing_key bad = Some k →
  start_all_forwards env file self
  = (Raise (KeyError k), snd (start_each env pre self)) ∧
  is_running (snd (start_all_forwards env file self)) = is_running self ∧
  ∀ q, (∀ m, m ∈ pre → Mapping.external_port m ≠ Some q) →
       active_forwards (snd (start_all_forwards env file self)) !! q
       = active_forwards self !! q.
Proof.
  intros Hfile Hpre Hbad.
  assert (Hrun : start_all_forwards env file self
                 = (Raise (KeyError k), snd (start_each env pre self))).
  { unfold start_all_forwards. rewrite Hfile, start_each_app by done.
    by rewrite (start_each_missing_key _ _ _ _ _ Hbad). }
  rewrite Hrun. simpl. split; [done|]. split.
  - apply start_each_is_running.
  - intros q Hq. by apply start_each_other_ports.
Qed.

Lemma start_all_forwards_stops_at_missing_key_witness :
  start_all_forwards always_binds Scenarios.faulty_file init
  = (Raise (KeyError "target_port"),
     snd (start_each always_binds [Scenarios.mapping_9001] init)) ∧
  active_forwards (snd (start_all_forwards always_binds Scenarios.faulty_file init)) !! 9000
  = None.
Proof.
  destruct (start_all_forwards_stops_at_missing_key always_binds Scenarios.faulty_file
              [Scenarios.mapping_9001] Scenarios.faulty_mapping [scenario_mapping]
              "target_port" init eq_refl) as (Hraise & _ & Hrest).
  - constructor; [|constructor]. repeat split; eexists; reflexivity.
  - reflexivity.
  - split; [exact Hraise|]. apply Hrest.
    intros m Hm. apply list_elem_of_singleton in Hm as ->. discriminate.
Defined.



(** X6: a port whose bind failed stays taken. After a
    [start_forwarding] whose thread could not bind, the port is
    registered with a thread that is not active. Neither a further
    [start_forwarding] for that port, which returns [False] and changes
    nothing, nor [start_all_forwards] on any file tries the port again:
    it stays registered with the same inactive thread.
    [stop_forwarding] unregisters it. *)
Theorem bind_failure_blocks_the_port env p h tp self :
  active_forwards self !! p = None →
  env (length (heap self)) = BindRaises →
  (∃ th, active_forwards (snd (start_forwarding env p h tp self)) !! p
         = Some (length (heap self)) ∧
         heap (snd (start_forwarding env p h tp self)) !! length (heap self) = Some th ∧
         stopped th ∧
         ∀ file,
           active_forwards
             (snd (start_all_forwards env file (snd (start_forwarding env p h tp self)))) !! p
           = Some (length (heap self)) ∧
           heap (snd (start_all_forwards env file (snd (start_forwarding env p h tp self))))
             !! length (heap self) = Some th) ∧
  (∀ h' tp',
     start_forwarding env p h' tp' (snd (start_forwarding env p h tp self))
     = (false, snd (start_forwarding env p h tp self))) ∧
  active_forwards
    (snd (stop_forwarding p (snd (start_forwarding env p h tp self)))) !! p = None.
Proof.
  intros Hp Hbind.
  destruct (start_forwarding_new_thread env p h tp self) as (th & Hreg & Hth & _ & _ & _ & Hact);
    [by rewrite Hbind|done|].
  split; [|split].
  - exists th. split; [done|]. split; [done|]. split.
    + revert Hth. unfold start_forwarding. rewrite Hp, Hbind. simpl.
      rewrite list_lookup_middle by done. intros [= <-]. by split.
    + intros file. rewrite start_all_forwards_active, start_all_forwards_heap. split.
      * by apply start_each_keeps_registration.
      * by apply start_each_heap_lookup.
  - intros h' tp'. by eapply start_forwarding_registered.
  - by rewrite stop_forwarding_active, lookup_delete_eq.
Qed.

Lemma bind_failure_blocks_the_port_witness :
  start_forwarding never_binds 9000 "10.0.0.9" 80
    (snd (start_forwarding never_binds 9000 "127.0.0.1" 9100 init))
  = (false, snd (start_forwarding never_binds 9000 "127.0.0.1" 9100 init)).
Proof.
  destruct (bind_failure_blocks_the_port never_binds 9000 "127.0.0.1" 9100 init
              eq_refl eq_refl) as (_ & Hagain & _).
  apply Hagain.
Defined.

(** X7: in every reachable state [get_status] reports one entry for
    each registered port and no other: the count [active_forwards] is the
    length of [forwards], the ports of the entries are the registered
    ports, each once. *)
Theorem get_status_one_entry_per_port env self :
  reachable env self →
  st_active_forwards (get_status self) = length (st_forwards (get_status self)) ∧
  NoDup (fs_external_port <$> st_forwards (get_status self)) ∧
  ∀ p, p ∈ fs_external_port <$> st_forwards (get_status self)
       ↔ is_Some (active_forwards self !! p).
Proof.
  intros [Ha _]%reachable_consistent.
  assert (Hports : fs_external_port <$> st_forwards (get_status self)
                   = (map_to_list (active_forwards self)).*1).
  { unfold get_status. simpl.
    assert (Hall : ∀ p id, (p, id) ∈ map_to_list (active_forwards self) →
                           is_Some (heap self !! id)).
    { intros p id Hin%elem_of_map_to_list.
      destruct (Ha _ _ Hin) as (th & -> & _). by eexists. }
    induction (map_to_list (active_forwards self)) as [|[p id] l IH]; [done|].
    simpl. destruct (Hall p id (list_elem_of_here _ _)) as [th Hth].
    rewrite Hth. simpl. f_equal. apply IH.
    intros q i Hin. apply (Hall q i). by right. }
  split; [|split].
  - rewrite <- (length_fmap fs_external_port), Hports, length_fmap.
    simpl. symmetry. apply length_map_to_list.
  - rewrite Hports. apply NoDup_fst_map_to_list.
  - intros p. rewrite Hports. split.
    + intros [[q id] [-> Hin%elem_of_map_to_list]]%list_elem_of_fmap. by eexists.
    + intros [id Hid]. apply list_elem_of_fmap. exists (p, id).
      split; [done|]. by apply elem_of_map_to_list.
Qed.

Lemma get_status_one_entry_per_port_witness :
  st_active_forwards (get_status Scenarios.two_port_forwarder)
  = length (st_forwards (get_status Scenarios.two_port_forwarder)).
Proof.
  destruct (get_status_one_entry_per_port always_binds Scenarios.two_port_forwarder
              two_port_forwarder_reachable) as (Hcount & _).
  exact Hcount.
Defined.

Lemma stop_each_heap_thread ports self id th :
  heap self !! id = Some th →
  heap (stop_each ports self) !! id = Some th ∨
  heap (stop_each ports self) !! id = Some (ForwardThread.stop th).
Proof.
  intros Hth. destruct (stop_each_heap_cases ports self id) as [->| ->];
    rewrite Hth; [by left|by right].
Qed.

(** X8: no method of the forwarder brings a thread object back to life.
    Across any one call of a public method an existing thread object
    keeps its port, its target and its connection count, and it is
    either left exactly as it was or has been stopped; a thread whose
    flag was reset stays that way (restarting a port always makes a new
    object). *)
Theorem stopped_thread_is_never_revived env self self' id th :
  step env self self' →
  heap self !! id = Some th →
  ∃ th',
    heap self' !! id = Some th' ∧
    (th' = th ∨ th' = ForwardThread.stop th) ∧
    ForwardThread.external_port th' = ForwardThread.external_port th ∧
    ForwardThread.target_host th' = ForwardThread.target_host th ∧
    ForwardThread.target_port th' = ForwardThread.target_port th ∧
    ForwardThread.connection_count th' = ForwardThread.connection_count th ∧
    (ForwardThread.is_active th = false → ForwardThread.is_active th' = false).
Proof.
  intros Hstep Hth.
  assert (Hcases : heap self' !! id = Some th ∨
                   heap self' !! id = Some (ForwardThread.stop th)).
  { destruct Hstep as [self p h tp|self p|self file|self|self file].
    - left. by apply start_forwarding_heap_lookup.
    - destruct (decide (active_forwards self !! p = Some id)) as [Hp|Hp].
      + right. by rewrite (stop_forwarding_heap_stopped _ _ _ Hp), Hth.
      + left. by rewrite (stop_forwarding_heap_same _ _ _ Hp).
    - left. rewrite start_all_forwards_heap. by apply start_each_heap_lookup.
    - unfold stop_all_forwards. simpl. by apply stop_each_heap_thread.
    - rewrite reload_mappings_state, start_all_forwards_heap.
      destruct (stop_each_heap_thread (map_to_list (active_forwards self)).*1 self id th Hth)
        as [H|H]; [left|right]; by apply start_each_heap_lookup. }
  destruct Hcases as [H|H]; eexists; (split; [exact H|]); repeat split; auto.
Qed.

Lemma stopped_thread_is_never_revived_witness :
  ∃ th',
    heap (snd (reload_mappings always_binds scenario_file
                 (stop_all_forwards scenario_forwarder))) !! 0%nat = Some th' ∧
    ForwardThread.is_active th' = false.
Proof.
  destruct (stopped_thread_is_never_revived always_binds
              (stop_all_forwards scenario_forwarder)
              (snd (reload_mappings always_binds scenario_file
                      (stop_all_forwards scenario_forwarder)))
              0%nat (ForwardThread.Build 9000 "127.0.0.1" 9100 false 0 (Some Closed)))
    as (th' & Hth' & _ & _ & _ & _ & _ & Hdead).
  - apply step_reload_mappings.
  - reflexivity.
  - exists th'. split; [exact Hth'|]. by apply Hdead.
Defined.

(** X9: when the mappings file is missing or cannot be read, the two
    engines part ways: [PortForwarder.reload_mappings] stops every
    listener and starts none, returning a status with zero forwards and
    [is_running] set, while [ProxyServer.load_mappings] keeps the route
    table it had. *)
Theorem unreadable_file_drops_listeners_keeps_routes env file self proxy :
  file = FileMissing ∨ file = FileUnreadable →
  reload_mappings env file self
  = (Return (BuildStatus true 0 []),
     Build ∅ true (heap (stop_all_forwards self))) ∧
  snd (ProxyServer.load_mappings file proxy) = proxy.
Proof.
  pose proof (stop_all_forwards_active self) as Hempty.
  intros [-> | ->]; (split; [|done]);
    unfold reload_mappings, start_all_forwards, get_status;
    cbn [load_mappings start_each fst snd active_forwards is_running heap];
    rewrite Hempty; by rewrite map_to_list_empty.
Qed.

Lemma unreadable_file_drops_listeners_keeps_routes_witness :
  fst (reload_mappings always_binds FileUnreadable Scenarios.two_port_forwarder)
  = Return (BuildStatus true 0 []) ∧
  snd (ProxyServer.load_mappings FileUnreadable scenario_proxy) = scenario_proxy.
Proof.
  destruct (unreadable_file_drops_listeners_keeps_routes always_binds FileUnreadable
              Scenarios.two_port_forwarder scenario_proxy (or_intror eq_refl))
    as [Hfwd Hproxy].
  split; [by rewrite Hfwd|exact Hproxy].
Defined.
End ForwardManagerExtras.

(** ** More on the relayed connection *)

Section SessionExtras.
Import ConnectionHandler Props.

(** X10: whatever the sockets do, the bytes a copy loop hands to its
    destination are a subsequence of the bytes it read from its source:
    bytes may be lost, but none is invented, repeated or moved. *)
Theorem forward_delivers_a_sublist src dst trace :
  delivered (forward src dst trace) `sublist_of` received (forward src dst trace).
Proof.
  induction trace as [|[| | |data send] rest IH]; simpl; try done.
  destruct data as [|b data]; [done|].
  destruct send as [|n]; simpl.
  - apply sublist_nil_l.
  - change (b :: data ++ received (forward src dst rest))
      with ((b :: data) ++ received (forward src dst rest)).
    apply sublist_app; [apply sublist_take|exact IH].
Qed.

(** X11: a timed-out [select] has no effect on the data: leaving the
    timed-out polls out of a trace changes neither the bytes read, nor
    the bytes delivered, nor the way the loop ends. *)
Theorem idle_polls_do_not_change_the_data src dst trace :
  received (forward src dst (Turns.busy_turns trace)) = received (forward src dst trace) ∧
  delivered (forward src dst (Turns.busy_turns trace)) = delivered (forward src dst trace) ∧
  status (forward src dst (Turns.busy_turns trace)) = status (forward src dst trace).
Proof.
  unfold Turns.busy_turns.
  induction trace as [|[| | |data send] rest IH]; simpl; try done.
  destruct IH as (Hr & Hd & Hs).
  destruct data as [|b data]; [done|].
  destruct send as [|n]; simpl; [done|].
  by rewrite Hr, Hd, Hs.
Qed.

(** X12: when the target cannot be reached the session ends at once:
    [run] creates the socket, sets its timeout, tries to connect, and
    goes straight to closing both sockets; no option is set, no copy
    loop is waited for. When not even the socket can be created, there
    is no target socket to close, and the client socket is closed. *)
Theorem unreachable_target_ends_the_session timeout e x :
  (socket_result e = Return tt → connect_result e = Raise x →
     main_calls (snd (run timeout e init))
     = [OpSocket TargetSocket; OpSetTimeout TargetSocket; OpConnect TargetSocket;
        OpClose TargetSocket; OpClose ClientSocket] ∧
     clock (snd (run timeout e init)) = 0%nat) ∧
  (socket_result e = Raise x →
     main_calls (snd (run timeout e init)) = [OpClose ClientSocket] ∧
     target_socket (snd (run timeout e init)) = None ∧
     clock (snd (run timeout e init)) = 0%nat).
Proof.
  destruct e as [r1 r2 r3 r4 r5 r6 c2t t2c]. simpl. split.
  - intros -> ->. by split.
  - intros ->. by repeat split.
Qed.

Lemma unreachable_target_ends_the_session_witness :
  clock (snd (run 30
                (BuildEnv (Return tt) (Raise (OSError "Connection refused")) (Return tt)
                          (Return tt) (Return tt) (Return tt) [] [])
                init)) = 0%nat.
Proof.
  destruct (unreachable_target_ends_the_session 30
              (BuildEnv (Return tt) (Raise (OSError "Connection refused")) (Return tt)
                        (Return tt) (Return tt) (Return tt) [] [])
              (OSError "Connection refused")) as [Hconnect _].
  by destruct (Hconnect eq_refl eq_refl).
Defined.


End SessionExtras.

(** ** The accept loop *)

Section AcceptLoopExtras.
Import AcceptLoop.

(** X14: the handlers that a listener starts are numbered consecutively
    from the listener's connection count: the k-th handler started gets
    the id [connection_count + k], so no two handlers of a listener share
    an id. Each handler is given the listener's target host and port, a
    buffer of 8192 bytes and a timeout of 30 seconds, and the listener's
    count ends at the number of connections accepted (one more than the
    number of handlers when the last handler could not be started). *)
Theorem accept_loop_numbers_connections trace th :
  connection_id <$> (accept_loop trace th).2
  = seq (S (ForwardThread.connection_count th)) (length (accept_loop trace th).2) ∧
  Forall (λ handler,
            target_host handler = ForwardThread.target_host th ∧
            target_port handler = ForwardThread.target_port th ∧
            buffer_size handler = 8192 ∧
            timeout handler = 30%nat)
         (accept_loop trace th).2 ∧
  (ForwardThread.connection_count th + length (accept_loop trace th).2
   ≤ ForwardThread.connection_count (accept_loop trace th).1
   ≤ S (ForwardThread.connection_count th + length (accept_loop trace th).2))%nat.
Proof.
  revert th. induction trace as [|[| |addr starts|] rest IH]; intros th; simpl;
    destruct (ForwardThread.is_active th) eqn:Hact; simpl;
    try (split; [done|]; split; [constructor|lia]).
  - apply IH.
  - destruct starts; simpl; [|split; [done|]; split; [constructor|lia]].
    specialize (IH (count_connection th)).
    destruct (accept_loop rest (count_connection th)) as [final handlers].
    simpl in *. destruct IH as (Hids & Hargs & Hcount).
    split; [by f_equal|]. split; [|lia].
    constructor; [done|exact Hargs].
Qed.

(** X15: neither a timed-out [accept] nor a served connection ends the
    accept loop. As long as every turn is one of these, the listener is
    still active, its socket is the one it had, and it has started one
    handler for every connection it accepted. *)
Theorem accept_loop_keeps_listening trace th :
  ForwardThread.is_active th = true →
  Forall (λ turn, Turns.keeps_listening turn = true) trace →
  ForwardThread.is_active (accept_loop trace th).1 = true ∧
  ForwardThread.server_socket (accept_loop trace th).1 = ForwardThread.server_socket th ∧
  length (accept_loop trace th).2 = length (filter (λ turn, Turns.accepted turn = true) trace).
Proof.
  intros Hact Hall. revert th Hact.
  induction Hall as [|[| |addr starts|] rest Hturn _ IH]; intros th Hact; simpl;
    rewrite Hact; try done.
  - by apply IH.
  - simpl in Hturn. subst starts.
    specialize (IH (count_connection th) Hact).
    destruct (accept_loop rest (count_connection th)) as [final handlers].
    simpl in *. destruct IH as (? & ? & ->). done.
Qed.

Lemma accept_loop_keeps_listening_witness :
  ForwardThread.is_active
    (accept_loop [AcceptTimeout; Accepted "198.51.100.7" true; AcceptTimeout]
       (ForwardThread.run_until_accept true (ForwardThread.init 9000 "127.0.0.1" 9100))).1
  = true.
Proof.
  destruct (accept_loop_keeps_listening
              [AcceptTimeout; Accepted "198.51.100.7" true; AcceptTimeout]
              (ForwardThread.run_until_accept true (ForwardThread.init 9000 "127.0.0.1" 9100)))
    as (Hactive & _).
  - reflexivity.
  - repeat constructor.
  - exact Hactive.
Defined.

(** X16: the first [accept] that raises, the first handler thread that
    cannot be started, or a [stop] from outside ends the accept loop for
    good: the listener's flag is reset and its socket closed, nothing
    that comes later is accepted, and the handlers started are those of
    the connections accepted before. *)
Theorem accept_loop_ends_at_first_failure pre turn post th :
  ForwardThread.is_active th = true →
  Forall (λ turn, Turns.keeps_listening turn = true) pre →
  Turns.keeps_listening turn = false →
  Steps.stopped (accept_loop (pre ++ turn :: post) th).1 ∧
  accept_loop (pre ++ turn :: post) th = accept_loop (pre ++ [turn]) th ∧
  length (accept_loop (pre ++ turn :: post) th).2
  = length (filter (λ turn, Turns.accepted turn = true) pre).
Proof.
  intros Hact Hpre Hturn. revert th Hact.
  induction Hpre as [|[| |addr starts|] rest Hhead _ IH]; intros th Hact; simpl;
    rewrite Hact; try done.
  - destruct turn as [| |addr starts|]; simpl in *; try done.
    + split; [|done]. apply stop_stopped.
    + subst starts. split; [|done]. apply stop_stopped.
    + split; [|done]. apply stop_stopped.
  - by apply IH.
  - simpl in Hhead. subst starts.
    specialize (IH (count_connection th) Hact).
    destruct (accept_loop (rest ++ turn :: post) (count_connection th)) as [final handlers].
    destruct (accept_loop (rest ++ [turn]) (count_connection th)) as [final' handlers'].
    simpl in *. destruct IH as (? & [= -> ->] & ->). done.
Qed.

Lemma accept_loop_ends_at_first_failure_witness :
  Steps.stopped
    (accept_loop ([Accepted "198.51.100.7" true] ++ Accepted "198.51.100.8" false
                    :: [Accepted "198.51.100.9" true])
       (ForwardThread.run_until_accept true (ForwardThread.init 9000 "127.0.0.1" 9100))).1.
Proof.
  destruct (accept_loop_ends_at_first_failure
              [Accepted "198.51.100.7" true] (Accepted "198.51.100.8" false)
              [Accepted "198.51.100.9" true]
              (ForwardThread.run_until_accept true (ForwardThread.init 9000 "127.0.0.1" 9100)))
    as (Hstopped & _).
  - reflexivity.
  - repeat constructor.
  - reflexivity.
  - exact Hstopped.
Defined.
End AcceptLoopExtras.

(** ** More on the HTTP proxy *)

Section ProxyExtras.
Import ProxyServer Props.

Lemma passable_active_complete mappings :
  Forall passable mappings →
  Forall complete (PortForwarder.load_mappings (FileContents mappings)).
Proof.
  intros Hall. simpl. apply Forall_forall. intros m [Hact Hin]%list_elem_of_filter.
  rewrite Forall_forall in Hall. destruct (Hall m Hin) as [Hoff|Hm]; [congruence|done].
Qed.

Lemma load_each_dom mappings routes :
  Forall passable mappings →
  fst (load_each mappings routes) = Return tt ∧
  dom (snd (load_each mappings routes))
  = ports_of (PortForwarder.load_mappings (FileContents mappings)) ∪ dom routes.
Proof.
  intros Hall. revert routes.
  induction Hall as [|m ms Hm _ IH]; intros routes; simpl.
  { split; [done|]. unfold ports_of. simpl. by rewrite union_empty_l_L. }
  simpl in IH. rewrite filter_cons.
  destruct (Mapping.get_is_active m) eqn:Hact.
  - destruct Hm as [Hm|([p Hp] & [h Hh] & [tp Htp])]; [congruence|].
    rewrite Hp, Hh, Htp. rewrite decide_True by done.
    destruct (IH (<[p:=target_url_of h tp]> routes)) as [-> ->].
    split; [done|]. rewrite dom_insert_L.
    unfold ports_of. simpl. rewrite Hp. simpl.
    rewrite (assoc_L (∪)). f_equal. apply (comm_L (∪)).
  - rewrite decide_False by done. apply IH.
Qed.



(** X18: when several active records name the same external port, the
    proxy routes the port to the last of them that its loading loop
    reaches: an active, complete record gets the route of its port
    unless a later active record names the port again. *)
Theorem proxy_last_mapping_wins pre m post p h tp self :
  Forall passable pre →
  Mapping.get_is_active m = true →
  Mapping.external_port m = Some p →
  Mapping.target_server m = Some h →
  Mapping.target_port m = Some tp →
  (∀ m', m' ∈ post → Mapping.get_is_active m' = true →
         Mapping.external_port m' ≠ Some p) →
  routes (snd (load_mappings (FileContents (pre ++ m :: post)) self)) !! p
  = Some (target_url_of h tp).
Proof.
  intros Hpre Hact Hp Hh Htp Hpost. simpl.
  rewrite load_each_app by done. simpl. rewrite Hact, Hp, Hh, Htp.
  rewrite load_each_other_ports by done. by rewrite lookup_insert_eq.
Qed.

Lemma proxy_last_mapping_wins_witness :
  routes (snd (load_mappings
                 (FileContents ([scenario_mapping] ++ Scenarios.rival_mapping :: []))
                 init)) !! 9000
  = Some (target_url_of "10.0.0.9" 80).
Proof.
  apply (proxy_last_mapping_wins [scenario_mapping] Scenarios.rival_mapping []).
  - repeat (apply Forall_cons_2; [right; repeat split; eexists; reflexivity|]).
    apply Forall_nil_2.
  - reflexivity.
  - reflexivity.
  - reflexivity.
  - reflexivity.
  - intros m' Hin. by apply not_elem_of_nil in Hin.
Defined.

(** X19: an active record that lacks a key cuts the proxy's table short.
    [load_mappings] has emptied the table before its loop, so what is
    left are the routes of the records before the faulty one: the ports
    of later records have no route, and neither have the ports that only
    the previous table knew. *)
Theorem load_mappings_stops_at_missing_key pre bad post k self :
  Forall passable pre →
  Mapping.get_is_active bad = true →
  Steps.missing_key bad = Some k →
  routes (snd (load_mappings (FileContents (pre ++ bad :: post)) self))
  = snd (load_each pre ∅) ∧
  load_each (pre ++ bad :: post) ∅ = (Raise (KeyError k), snd (load_each pre ∅)) ∧
  dom (routes (snd (load_mappings (FileContents (pre ++ bad :: post)) self)))
  = ports_of (PortForwarder.load_mappings (FileContents pre)).
Proof.
  intros Hpre Hact Hbad.
  assert (Hrun : load_each (pre ++ bad :: post) ∅
                 = (Raise (KeyError k), snd (load_each pre ∅))).
  { rewrite load_each_app by done. simpl. rewrite Hact.
    revert Hbad. unfold Steps.missing_key.
    destruct (Mapping.external_port bad); [|by intros [= <-]].
    destruct (Mapping.target_server bad); [|by intros [= <-]].
    destruct (Mapping.target_port bad); [done|by intros [= <-]]. }
  simpl. rewrite Hrun. simpl. split; [done|]. split; [done|].
  destruct (load_each_dom pre ∅ Hpre) as [_ ->].
  by rewrite dom_empty_L, union_empty_r_L.
Qed.

Lemma load_mappings_stops_at_missing_key_witness :
  dom (routes (snd (load_mappings
                      (FileContents ([Scenarios.mapping_9001] ++ Scenarios.faulty_mapping
                                       :: [scenario_mapping]))
                      scenario_proxy)))
  = ports_of (PortForwarder.load_mappings (FileContents [Scenarios.mapping_9001])).
Proof.
  destruct (load_mappings_stops_at_missing_key [Scenarios.mapping_9001]
              Scenarios.faulty_mapping [scenario_mapping] "target_port" scenario_proxy)
    as (_ & _ & Hdom).
  - repeat (apply Forall_cons_2; [right; repeat split; eexists; reflexivity|]).
    apply Forall_nil_2.
  - reflexivity.
  - reflexivity.
  - exact Hdom.
Defined.

(** X21: the two status endpoints count the routes, and [get_status]
    lists the routed ports: [active_mappings] is the same number in
    [health_check] and [get_status], it is the length of the list
    [mappings], that list has no port twice, and a port is on it exactly
    when the route table has a route for it. *)
Theorem status_lists_the_routed_ports now self p :
  ProxyControl.hj_active_mappings (ProxyControl.health_check now self)
  = ProxyControl.sj_active_mappings (ProxyControl.get_status now self) ∧
  ProxyControl.sj_active_mappings (ProxyControl.get_status now self)
  = length (ProxyControl.sj_mappings (ProxyControl.get_status now self)) ∧
  NoDup (ProxyControl.sj_mappings (ProxyControl.get_status now self)) ∧
  (p ∈ ProxyControl.sj_mappings (ProxyControl.get_status now self)
   ↔ is_Some (routes self !! p)).
Proof.
  simpl. split; [done|]. split; [|split].
  - rewrite length_fmap. symmetry. apply length_map_to_list.
  - apply NoDup_fst_map_to_list.
  - split.
    + intros [[q url] [-> Hin%elem_of_map_to_list]]%list_elem_of_fmap. by eexists.
    + intros [url Hurl]. apply list_elem_of_fmap. exists (p, url).
      split; [done|]. by apply elem_of_map_to_list.
Qed.
End ProxyExtras.

(** ** Start-up of the proxy *)

Section ProxyStartExtras.
Import ProxyControl.

Lemma valid_port_range p : valid_port p = true ↔ 0 ≤ p ≤ 65535.
Proof. unfold valid_port. rewrite andb_true_iff, !Z.leb_le. done. Qed.

Lemma find_available_port_cases port_free start_port max_attempts :
  match find_available_port port_free start_port max_attempts with
  | Return (Some p) =>
      start_port ≤ p < start_port + Z.of_nat max_attempts ∧
      0 ≤ p ≤ 65535 ∧
      port_free p = true ∧
      ∀ q, start_port ≤ q < p → 0 ≤ q ≤ 65535 ∧ port_free q = false
  | Return None =>
      ∀ q, start_port ≤ q < start_port + Z.of_nat max_attempts →
           0 ≤ q ≤ 65535 ∧ port_free q = false
  | Raise e =>
      e = OverflowError ∧
      ∃ bad, start_port ≤ bad < start_port + Z.of_nat max_attempts ∧
             ¬ (0 ≤ bad ≤ 65535) ∧
             ∀ q, start_port ≤ q < bad → 0 ≤ q ≤ 65535 ∧ port_free q = false
  end.
Proof.
  revert start_port. induction max_attempts as [|n IH]; intros start_port; simpl.
  { intros q Hq. lia. }
  destruct (valid_port start_port) eqn:Hvalid.
  - apply valid_port_range in Hvalid.
    destruct (port_free start_port) eqn:Hfree.
    + split; [lia|]. split; [done|]. split; [done|]. intros q Hq. lia.
    + specialize (IH (start_port + 1)).
      destruct (find_available_port port_free (start_port + 1) n) as [[p|]|e].
      * destruct IH as (Hrange & Hp & Hfreep & Hbelow).
        split; [lia|]. split; [done|]. split; [done|].
        intros q Hq. destruct (decide (q = start_port)) as [->|Hne]; [done|].
        apply Hbelow. lia.
      * intros q Hq. destruct (decide (q = start_port)) as [->|Hne]; [done|].
        apply IH. lia.
      * destruct IH as (-> & bad & Hrange & Hbad & Hbelow).
        split; [done|]. exists bad. split; [lia|]. split; [done|].
        intros q Hq. destruct (decide (q = start_port)) as [->|Hne]; [done|].
        apply Hbelow. lia.
  - split; [done|]. exists start_port. split; [lia|]. split.
    + intros Hrange. apply valid_port_range in Hrange. congruence.
    + intros q Hq. lia.
Qed.

(** X22: [find_available_port] tries the ports
    [start_port, ..., start_port + max_attempts - 1] in order. It returns
    the first that can be bound, [None] when all of them are port numbers
    and none can be bound, and it raises [OverflowError] when it comes,
    past ports that cannot be bound, to a number outside 0..65535. On a
    range that lies within 0..65535 it therefore never raises: it returns
    the lowest port that can be bound, and [None] exactly when none can. *)
Theorem find_available_port_finds_the_lowest port_free start_port max_attempts :
  match find_available_port port_free start_port max_attempts with
  | Return (Some p) =>
      start_port ≤ p < start_port + Z.of_nat max_attempts ∧
      0 ≤ p ≤ 65535 ∧
      port_free p = true ∧
      ∀ q, start_port ≤ q < p → 0 ≤ q ≤ 65535 ∧ port_free q = false
  | Return None =>
      ∀ q, start_port ≤ q < start_port + Z.of_nat max_attempts →
           0 ≤ q ≤ 65535 ∧ port_free q = false
  | Raise e =>
      e = OverflowError ∧
      ∃ bad, start_port ≤ bad < start_port + Z.of_nat max_attempts ∧
             ¬ (0 ≤ bad ≤ 65535) ∧
             ∀ q, start_port ≤ q < bad → 0 ≤ q ≤ 65535 ∧ port_free q = false
  end ∧
  (0 ≤ start_port → start_port + Z.of_nat max_attempts ≤ 65536 →
   (∀ p, find_available_port port_free start_port max_attempts = Return (Some p) ↔
         start_port ≤ p < start_port + Z.of_nat max_attempts ∧
         port_free p = true ∧
         ∀ q, start_port ≤ q < p → port_free q = false) ∧
   (find_available_port port_free start_port max_attempts = Return None ↔
    ∀ q, start_port ≤ q < start_port + Z.of_nat max_attempts → port_free q = false)).
Proof.
  pose proof (find_available_port_cases port_free start_port max_attempts) as Hfind.
  split; [exact Hfind|]. intros Hlow Hhigh.
  destruct (find_available_port port_free start_port max_attempts) as [[p0|]|e].
  - destruct Hfind as (Hrange & _ & Hp & Hbelow). split.
    + intros p. split.
      * intros [= <-]. split; [done|]. split; [done|]. intros q Hq. by apply Hbelow.
      * intros (Hrange' & Hp' & Hbelow'). do 2 f_equal.
        destruct (Z.lt_trichotomy p0 p) as [Hlt|[->|Hgt]]; [|done|].
        -- rewrite Hbelow' in Hp; [done|lia].
        -- destruct (Hbelow p) as [_ Hbusy]; [lia|]. congruence.
    + split; [done|]. intros Hnone. rewrite Hnone in Hp; [done|lia].
  - split.
    + intros p. split; [done|]. intros (Hrange & Hp & _).
      destruct (Hfind p Hrange) as [_ Hbusy]. congruence.
    + split; [|done]. intros _ q Hq. by apply Hfind.
  - destruct Hfind as (_ & bad & Hrange & Hbad & _). lia.
Qed.

Lemma find_available_port_finds_the_lowest_witness :
  find_available_port (λ p, bool_decide (p = 8082)) 8080 10 = Return (Some 8082).
Proof.
  destruct (find_available_port_finds_the_lowest (λ p, bool_decide (p = 8082)) 8080 10)
    as [_ Hin_range].
  destruct Hin_range as [Hsome _]; [lia|lia|].
  apply Hsome. split; [lia|]. split; [reflexivity|].
  intros q Hq. apply bool_decide_eq_false. lia.
Defined.

(** X23: [start_background] probes the ten ports [port, ..., port + 9]
    with [find_available_port]. When the first of them that can be bound
    is found it returns [True] and records that port in [current_port],
    and it does so even when the server thread then fails to start the
    site, in which case [is_running] keeps the value it had. When all ten
    are port numbers and none can be bound it returns [False] and leaves
    the object as it was. When the probing comes to a number outside
    0..65535 the [OverflowError] leaves [start_background], and the
    object is as it was. For [0 ≤ port ≤ 65526] it never raises. *)
Theorem start_background_records_the_lowest_free_port
    port_free site file port self :
  match start_background port_free site file port self with
  | (Return true, self') =>
      ∃ p, current_port self' = Some p ∧
           port ≤ p < port + 10 ∧
           port_free p = true ∧
           (∀ q, port ≤ q < p → port_free q = false) ∧
           (∀ e, site = Raise e →
                 ProxyServer.is_running (server self')
                 = ProxyServer.is_running (server self))
  | (Return false, self') =>
      self' = self ∧ ∀ q, port ≤ q < port + 10 → port_free q = false
  | (Raise e, self') =>
      e = OverflowError ∧ self' = self ∧ ¬ (0 ≤ port ∧ port + 10 ≤ 65536)
  end.
Proof.
  unfold start_background.
  pose proof (find_available_port_cases port_free port 10) as Hfind.
  destruct (find_available_port port_free port 10) as [[p|]|e].
  - destruct Hfind as (Hrange & _ & Hp & Hbelow).
    exists p. split; [done|]. split; [lia|]. split; [done|]. split.
    + intros q Hq. by apply Hbelow.
    + intros e ->. simpl. unfold ProxyServer.start_server.
      destruct (ProxyServer.is_running (server self)) eqn:Hrun; [done|].
      by destruct file.
  - split; [done|]. intros q Hq. apply Hfind. lia.
  - destruct Hfind as (-> & bad & Hrange & Hbad & _).
    split; [done|]. split; [done|]. lia.
Qed.
End ProxyStartExtras.

(** ** Helpers of the admin layer *)

Section AppExtras.
Import App.

Lemma py_gt_Return a b r :
  py_gt a b = Return r →
  (is_Some (as_int a) ↔ is_Some (as_int b)).
Proof.
  unfold py_gt. by destruct (as_int a) as [x|], (as_int b) as [y|].
Qed.

Lemma py_gt_Raise a b e : py_gt a b = Raise e → e = TypeError.
Proof.
  unfold py_gt. destruct (as_int a), (as_int b); try by intros [= <-].
  destruct a, b; try done; by intros [= <-].
Qed.

Lemma py_max_from_Raise best values e :
  py_max_from best values = Raise e → e = TypeError.
Proof.
  revert best. induction values as [|v rest IH]; intros best; simpl; [done|].
  destruct (py_gt v best) as [[]|e'] eqn:Hgt; [apply IH|apply IH|].
  intros [= <-]. by eapply py_gt_Raise.
Qed.

(** A scan that comes through has compared like with like. *)
Lemma py_max_from_Return best values v :
  py_max_from best values = Return v →
  (is_Some (as_int v) ↔ is_Some (as_int best)) ∧
  Forall (λ x, is_Some (as_int x) ↔ is_Some (as_int best)) values.
Proof.
  revert best. induction values as [|x rest IH]; intros best; simpl.
  { intros [= <-]. by split. }
  destruct (py_gt x best) as [[]|e'] eqn:Hgt; [| |done];
    apply py_gt_Return in Hgt; intros [Hv Hrest]%IH.
  - split; [by rewrite Hv|]. constructor; [done|].
    eapply Forall_impl; [exact Hrest|]. intros y Hy. simpl in Hy. by rewrite Hy.
  - split; [done|]. by constructor.
Qed.

Lemma py_max_from_ints best values b :
  as_int best = Some b →
  Forall (λ x, is_Some (as_int x)) values →
  ∃ v m, py_max_from best values = Return v ∧ as_int v = Some m ∧ b ≤ m ∧
         Forall (λ x, ∀ z, as_int x = Some z → z ≤ m) values.
Proof.
  intros Hbest Hall. revert best b Hbest.
  induction Hall as [|x rest [z Hz] _ IH]; intros best b Hbest; simpl.
  { exists best, b. split; [done|]. split; [done|]. split; [lia|constructor]. }
  unfold py_gt. rewrite Hz, Hbest.
  destruct (b <? z) eqn:Hlt.
  - apply Z.ltb_lt in Hlt. destruct (IH x z Hz) as (v & m & Hrun & Hm & Hle & Hrest).
    exists v, m. split; [done|]. split; [done|]. split; [lia|].
    constructor; [|done]. intros z' Hz'. rewrite Hz in Hz'. injection Hz' as <-. lia.
  - apply Z.ltb_ge in Hlt. destruct (IH best b Hbest) as (v & m & Hrun & Hm & Hle & Hrest).
    exists v, m. split; [done|]. split; [done|]. split; [lia|].
    constructor; [|done]. intros z' Hz'. rewrite Hz in Hz'. injection Hz' as <-. lia.
Qed.

(** X24: when every [id] in the list is a number (a missing [id] counts
    as 0), [get_next_id] returns a number that is greater than all of
    them, so that no record of the list carries it; for the empty list it
    returns 1. *)
Theorem get_next_id_is_unused (data_list : list item) :
  Forall (λ it, is_Some (as_int (get_id it))) data_list →
  ∃ next,
    get_next_id data_list = Return (JNum next) ∧
    (data_list = [] → next = 1) ∧
    ∀ it z, it ∈ data_list → as_int (get_id it) = Some z → z < next.
Proof.
  intros Hall. unfold get_next_id.
  destruct data_list as [|first rest].
  { exists 1. split; [done|]. split; [done|]. intros it z Hin. by apply not_elem_of_nil in Hin. }
  rewrite fmap_cons. cbv beta iota.
  apply Forall_cons in Hall as [[b Hb] Hrest].
  destruct (py_max_from_ints (get_id first) (get_id <$> rest) b Hb)
    as (v & m & Hrun & Hm & Hle & Hbound).
  { by apply Forall_fmap. }
  rewrite Hrun. unfold py_add_one. rewrite Hm.
  exists (m + 1). split; [done|]. split; [done|].
  intros it z [->|Hin]%elem_of_cons Hz.
  - rewrite Hb in Hz. injection Hz as <-. lia.
  - rewrite Forall_fmap, Forall_forall in Hbound.
    specialize (Hbound it Hin z Hz). lia.
Qed.

Lemma get_next_id_is_unused_witness :
  ∃ next,
    get_next_id [{[ "id" := JNum 1 ]}; {[ "id" := JNum 4 ]}; ∅] = Return (JNum next) ∧
    4 < next.
Proof.
  destruct (get_next_id_is_unused [{[ "id" := JNum 1 ]}; {[ "id" := JNum 4 ]}; ∅])
    as (next & Hnext & _ & Hfresh).
  - repeat (apply Forall_cons_2; [by eexists|]). apply Forall_nil_2.
  - exists next. split; [exact Hnext|].
    apply (Hfresh {[ "id" := JNum 4 ]}); [|reflexivity].
    right. left.
Defined.

(** X25: when some record of the list has an [id] that is a string or
    null, as the [id] ["1"] of the administrator record that
    [initialize_data_files] writes, [get_next_id] raises [TypeError]:
    either [max] meets a string next to a number, or [+ 1] meets the
    string that [max] returned. *)
Theorem get_next_id_raises_on_text_id (data_list : list item) it :
  it ∈ data_list →
  as_int (get_id it) = None →
  get_next_id data_list = Raise TypeError.
Proof.
  intros Hin Hnone. unfold get_next_id.
  destruct data_list as [|first rest]; [by apply not_elem_of_nil in Hin|].
  rewrite fmap_cons. cbv beta iota.
  destruct (py_max_from (get_id first) (get_id <$> rest)) as [v|e] eqn:Hrun.
  - apply py_max_from_Return in Hrun as [Hv Hrest].
    assert (Hfirst : as_int (get_id first) = None).
    { apply elem_of_cons in Hin as [->|Hin]; [done|].
      rewrite Forall_fmap, Forall_forall in Hrest.
      specialize (Hrest it Hin). simpl in Hrest. rewrite Hnone in Hrest.
      destruct (as_int (get_id first)); [|done].
      destruct Hrest as [_ Hrest]. by destruct Hrest. }
    unfold py_add_one. rewrite Hfirst in Hv.
    destruct (as_int v); [|done]. destruct Hv as [Hv _]. by destruct Hv.
  - by apply py_max_from_Raise in Hrun as ->.
Qed.

Lemma get_next_id_raises_on_text_id_witness :
  get_next_id [{[ "id" := JStr "1" ]}] = Raise TypeError.
Proof.
  apply (get_next_id_raises_on_text_id _ {[ "id" := JStr "1" ]}).
  - left.
  - reflexivity.
Defined.

(** X26: [check_server_status_advanced] probes [default_port] first when
    it is not on the list yet, then the ports of the list in order, and
    answers with the first port whose request returns a status below
    500; it answers [(False, None)] exactly when no probed port does. *)
Theorem check_server_status_advanced_first_responding
    probe server_ip default_port ports :
  let probed := if decide (default_port ∈ ports) then ports else default_port :: ports in
  snd (check_server_status_advanced probe server_ip default_port ports) = probed ∧
  match fst (check_server_status_advanced probe server_ip default_port ports) with
  | (true, Some port) =>
      ∃ i, probed !! i = Some port ∧
           responds probe server_ip port = true ∧
           ∀ j earlier, (j < i)%nat → probed !! j = Some earlier →
                        responds probe server_ip earlier = false
  | (false, None) =>
      ∀ port, port ∈ probed → responds probe server_ip port = false
  | _ => False
  end.
Proof.
  intros probed. unfold check_server_status_advanced. fold probed.
  destruct (list_find _ probed) as [[i port]|] eqn:Hfind; simpl.
  - split; [done|]. apply list_find_Some in Hfind as (Hi & Hport & Hbefore).
    exists i. split; [done|]. split; [done|].
    intros j earlier Hlt Hj. specialize (Hbefore j earlier Hj Hlt).
    by destruct (responds probe server_ip earlier).
  - split; [done|]. apply list_find_None in Hfind.
    rewrite Forall_forall in Hfind. intros port Hin.
    specialize (Hfind port Hin). by destruct (responds probe server_ip port).
Qed.

Lemma check_server_status_advanced_ports probe server_ip default_port ports :
  snd (check_server_status_advanced probe server_ip default_port ports)
  = if decide (default_port ∈ ports) then ports else default_port :: ports.
Proof.
  unfold check_server_status_advanced. by destruct (list_find _ _) as [[? ?]|].
Qed.

(** X27: the default list of [check_server_status_advanced] is one list
    object shared by all calls that do not pass [ports], and each call
    may add to it. Over any run of such calls the list only grows at its
    front: the ports it held stay, in their order; every [default_port]
    that was ever passed is on it afterwards and is probed by all later
    calls, for whatever server; and no port gets on it twice. *)
Theorem default_port_list_accumulates probe calls ports :
  ports `suffix_of` checks_with_default_list probe calls ports ∧
  (∀ server_ip default_port,
     (server_ip, default_port) ∈ calls →
     default_port ∈ checks_with_default_list probe calls ports) ∧
  (NoDup ports → NoDup (checks_with_default_list probe calls ports)).
Proof.
  unfold checks_with_default_list.
  revert ports. induction calls as [|[ip d] calls IH]; intros ports; simpl.
  { split; [done|]. split; [|done]. intros ip d Hin. by apply not_elem_of_nil in Hin. }
  rewrite check_server_status_advanced_ports.
  set (ports' := if decide (d ∈ ports) then ports else d :: ports).
  assert (Hsuffix : ports `suffix_of` ports').
  { unfold ports'. destruct (decide (d ∈ ports)); [done|]. by apply suffix_cons_r. }
  assert (Hd : d ∈ ports').
  { unfold ports'. destruct (decide (d ∈ ports)); [done|]. left. }
  destruct (IH ports') as (Hgrow & Hcalls & Hnodup).
  split; [by etrans|]. split.
  - intros ip' d' [[= -> ->]|Hin]%elem_of_cons; [|by eapply Hcalls].
    destruct Hgrow as [k ->]. apply elem_of_app. by right.
  - intros Hports. apply Hnodup. unfold ports'.
    destruct (decide (d ∈ ports)); [done|]. by constructor.
Qed.

Lemma default_port_list_accumulates_witness :
  NoDup (checks_with_default_list (λ _ _, None)
           [("10.0.0.1", 9100); ("10.0.0.2", 80); ("10.0.0.3", 9100)] default_ports).
Proof.
  destruct (default_port_list_accumulates (λ _ _, None)
              [("10.0.0.1", 9100); ("10.0.0.2", 80); ("10.0.0.3", 9100)] default_ports)
    as (_ & _ & Hnodup).
  apply Hnodup. apply (bool_decide_unpack _). reflexivity.
Defined.
End AppExtras.
